(** * Constant-expression semantics of the register-description compiler

    A shallow embedding of [src/compiler/expressions.py]: the expression node
    classes, their type prediction, the two-phase width resolution
    ([resolve_expr_width] / [propagate_eval_width] / [get_min_eval_width])
    and value evaluation ([get_value]).

    Modelling choices, all taken from the source:
    - A Python [int] is a [Z]; [&], [|], [^], [~], [<<], [>>] are
      [Z.land], [Z.lor], [Z.lxor], [Z.lnot], [Z.shiftl], [Z.shiftr];
      [//] and [%] are [Z.div] and [Z.modulo] (both round the quotient
      toward minus infinity, as Python does).
    - The tree shape and the attributes assigned once in [__init__]
      ([val], [width], [dest_type], [w_int], the operand list, [err_ctx])
      are an inductive type.  The two attributes that are assigned after
      construction, [expr_eval_width] and [cast_width], live in a heap
      indexed by node identity.  A node is identified by its position in
      the tree (the list of operand indices that leads to it from the
      root), so two distinct positions are two distinct objects.
      The data model of the specification has no node shared between two
      positions.
    - Methods are computations in a state-and-exception monad over that
      heap.  Recursion over the tree is structural; only the two [while]
      loops of the parity reductions take fuel.  A call that raises has no
      heap in its outcome: the exception reaches the consumer, which gives
      the expression up.
    - The [print] in [_RelationalExpr.__init__] is not modelled. *)

From Stdlib Require Import ZArith Lia.
From stdpp Require Import base option list gmap strings.

Set Warnings "-register-all".

Local Open Scope Z_scope.

(** ** Outcomes of a call *)

(** The source-location handle [err_ctx], opaque to this module. *)
Definition ctx := nat.

(** The exceptions the module can raise: its own [RDLCompileError]
    (message and source-location handle) and the Python built-in ones. *)
Inductive exn : Type :=
  | RDLCompileError (msg : string) (err_ctx : ctx)
  | NotImplementedError
  | TypeError
  | ValueError
  | ZeroDivisionError
  | IndexError.

(** A call returns a result, raises, or is still inside a parity loop when
    the fuel runs out. *)
Inductive outcome (A : Type) : Type :=
  | Ok (a : A)
  | Raise (e : exn)
  | OutOfFuel.
Arguments Ok {A} a.
Arguments Raise {A} e.
Arguments OutOfFuel {A}.

(** ** Values and types *)

(** Modelled from the spec: the enumerations of [model/rdl_types.py] are not
    part of these sources.  The spec names five of them (access-type,
    on-read-type, on-write-type, addressing-type, precedence-type); a member
    is identified by its index in its enumeration.  Members are taken to be
    plain enumeration members: true in a boolean context and refused by
    [int()]. *)
Inductive enum_ty : Type :=
  AccessType | OnReadType | OnWriteType | AddressingType | PrecedenceType.

(** What [get_value] can return. *)
Inductive value : Type :=
  | VInt (n : Z)
  | VBool (b : bool)
  | VStr (s : string)
  | VEnum (t : enum_ty) (member : nat).

(** What [predict_type] can return: the Python classes [int], [bool],
    [str], the placeholders [tp.Bit] and [tp.Array], and the enumeration
    classes. *)
Inductive ty : Type :=
  | Tint | Tbool | Tstr | TBit | TArray
  | Tenum (t : enum_ty).

Global Instance enum_ty_eq_dec : EqDecision enum_ty.
Proof. solve_decision. Defined.
Global Instance ty_eq_dec : EqDecision ty.
Proof. solve_decision. Defined.

(** [t in [int, bool, tp.Bit]] *)
Definition numeric_like (t : ty) : bool :=
  bool_decide (t = Tint) || bool_decide (t = Tbool) || bool_decide (t = TBit).

(** ** Python built-ins used by the module *)

Module Py.

(** [x << y] and [x >> y]: a negative count raises [ValueError]. *)
Definition lshift (x y : Z) : outcome Z :=
  if y <? 0 then Raise ValueError else Ok (Z.shiftl x y).

Definition rshift (x y : Z) : outcome Z :=
  if y <? 0 then Raise ValueError else Ok (Z.shiftr x y).

(** [x // y] and [x % y]: floor division and its remainder. *)
Definition floordiv (x y : Z) : outcome Z :=
  if y =? 0 then Raise ZeroDivisionError else Ok (x / y).

Definition modulo (x y : Z) : outcome Z :=
  if y =? 0 then Raise ZeroDivisionError else Ok (x mod y).

(** [bool(v)] *)
Definition to_bool (v : value) : bool :=
  match v with
  | VInt n => negb (n =? 0)
  | VBool b => b
  | VStr s => negb (bool_decide (s = EmptyString))
  | VEnum _ _ => true
  end.

End Py.

(** ** The heap of mutable attributes *)

(** A node object is identified by its position: the operand indices on
    the way from the root.  [self.op[i]] of the node at [self] is the node
    at [self ++ [i]]. *)
Abbreviation node := (list nat).

(** [expr_eval_width] and [cast_width] of every node; an absent entry is
    the attribute value [None].  The empty heap is therefore the state
    right after [_Expr.__init__]. *)
Record heap : Type := Heap {
  expr_eval_width : gmap node Z;
  cast_width : gmap node Z
}.

Definition empty_heap : heap := Heap ∅ ∅.

(** Assigning an optional integer to an attribute. *)
Definition assign (self : node) (w : option Z) (m : gmap node Z) : gmap node Z :=
  match w with
  | Some w => <[self := w]> m
  | None => delete self m
  end.

(** ** The state-and-exception monad *)

Definition M (A : Type) : Type := heap -> outcome (A * heap).

Definition ret {A} (a : A) : M A := fun h => Ok (a, h).

Definition bind {A B} (m : M A) (k : A -> M B) : M B :=
  fun h =>
    match m h with
    | Ok (a, h') => k a h'
    | Raise e => Raise e
    | OutOfFuel => OutOfFuel
    end.

Definition raise {A} (e : exn) : M A := fun _ => Raise e.

Definition lift {A} (o : outcome A) : M A :=
  fun h =>
    match o with
    | Ok a => Ok (a, h)
    | Raise e => Raise e
    | OutOfFuel => OutOfFuel
    end.

Global Instance M_ret : MRet M := @ret.
Global Instance M_bind : MBind M := fun A B k m => bind m k.
Global Instance M_fmap : FMap M := fun A B f m => bind m (fun a => ret (f a)).

Definition get_expr_eval_width (self : node) : M (option Z) :=
  fun h => Ok (expr_eval_width h !! self, h).

Definition set_expr_eval_width (self : node) (w : option Z) : M unit :=
  fun h => Ok (tt, Heap (assign self w (expr_eval_width h)) (cast_width h)).

Definition get_cast_width (self : node) : M (option Z) :=
  fun h => Ok (cast_width h !! self, h).

Definition set_cast_width (self : node) (w : option Z) : M unit :=
  fun h => Ok (tt, Heap (expr_eval_width h) (assign self w (cast_width h))).

(** [for x in l: body(x)] *)
Fixpoint for_each {A} (l : list A) (body : A -> M unit) : M unit :=
  match l with
  | [] => ret tt
  | x :: l' => body x;; for_each l' body
  end.

(** [_Expr.trunc]: [mask = (1 << self.expr_eval_width) - 1; v & mask].
    The shift raises [TypeError] on [None] and [ValueError] on a negative
    width. *)
Definition trunc (self : node) (v : Z) : M Z :=
  w ← get_expr_eval_width self;
  match w with
  | None => raise TypeError
  | Some w => one_shl ← lift (Py.lshift 1 w); ret (Z.land v (one_shl - 1))
  end.

(** The loop shared by [XorReduce] and [XnorReduce]:
    [while(n): if(n & 1): v ^= 1; n >>= 1].  Every iteration takes one unit
    of fuel; the result is [v] at exit together with the number of
    iterations executed. *)
Fixpoint parity_loop (fuel : nat) (n v : Z) (iterations : nat)
  : outcome (Z * nat) :=
  if n =? 0 then Ok (v, iterations)
  else
    match fuel with
    | O => OutOfFuel
    | S fuel' =>
        parity_loop fuel' (Z.shiftr n 1)
          (if Z.land n 1 =? 0 then v else Z.lxor v 1) (S iterations)
    end.

(** ** Expression trees *)

Inductive binop : Type :=
  Add | Sub | Mult | Div | Mod
  | BitwiseAnd | BitwiseOr | BitwiseXor | BitwiseXnor.
Inductive unop : Type := UnaryPlus | UnaryMinus | BitwiseInvert.
Inductive relop : Type := Eq | Neq | Lt | Gt | Leq | Geq.
Inductive redop : Type :=
  AndReduce | NandReduce | OrReduce | NorReduce
  | XorReduce | XnorReduce | BoolNot.
Inductive boolop : Type := BoolAnd | BoolOr.
Inductive shiftop : Type := Exponent | LShift | RShift.

(** One constructor per class family; the concrete class is the first
    argument.  Arguments are those of [__init__]. *)
Inductive expr : Type :=
  | IntLiteral (err_ctx : ctx) (val : Z) (width : Z)
  | BuiltinEnumLiteral (err_ctx : ctx) (t : enum_ty) (member : nat)
  | StringLiteral (err_ctx : ctx) (val : string)
  | BinaryIntExpr (cls : binop) (err_ctx : ctx) (l r : expr)
  | UnaryIntExpr (cls : unop) (err_ctx : ctx) (n : expr)
  | RelationalExpr (cls : relop) (err_ctx : ctx) (l r : expr)
  | ReductionExpr (cls : redop) (err_ctx : ctx) (n : expr)
  | BoolExpr (cls : boolop) (err_ctx : ctx) (l r : expr)
  | ExpShiftExpr (cls : shiftop) (err_ctx : ctx) (l r : expr)
  | TernaryExpr (err_ctx : ctx) (i j k : expr)
  | WidthCast (err_ctx : ctx) (v : expr) (w_expr : option expr) (w_int : Z)
  | BoolCast (err_ctx : ctx) (n : expr)
  | AssignmentCast (err_ctx : ctx) (v : expr) (dest_type : ty).

(** The heap after the constructors of the tree rooted at [self] have run:
    [_Expr.__init__] sets [expr_eval_width = None] in every node, and
    [WidthCast.__init__] sets [cast_width] to [None] when a width
    expression is given and to [w_int] otherwise. *)
Fixpoint construct (e : expr) (self : node) (h : heap) : heap :=
  let init h := Heap (assign self None (expr_eval_width h)) (cast_width h) in
  match e with
  | IntLiteral _ _ _ | BuiltinEnumLiteral _ _ _ | StringLiteral _ _ => init h
  | BinaryIntExpr _ _ l r | RelationalExpr _ _ l r
  | BoolExpr _ _ l r | ExpShiftExpr _ _ l r =>
      init (construct r (self ++ [1%nat]) (construct l (self ++ [0%nat]) h))
  | UnaryIntExpr _ _ n | ReductionExpr _ _ n | BoolCast _ n
  | AssignmentCast _ n _ =>
      init (construct n (self ++ [0%nat]) h)
  | TernaryExpr _ i j k =>
      init (construct k (self ++ [2%nat])
              (construct j (self ++ [1%nat]) (construct i (self ++ [0%nat]) h)))
  | WidthCast _ v w_expr w_int =>
      let h := construct v (self ++ [0%nat]) h in
      match w_expr with
      | Some we =>
          let h := init (construct we (self ++ [1%nat]) h) in
          Heap (expr_eval_width h) (assign self None (cast_width h))
      | None =>
          let h := init h in
          Heap (expr_eval_width h) (assign self (Some w_int) (cast_width h))
      end
  end.

(** ** The node interface *)

(** An object of class [_Expr], as its callers see it: one computation per
    method, already bound to [self].  Passing such objects in a list is how
    the base-class methods iterate over [self.op]. *)
Record Expr : Type := {
  predict_type : M ty;
  resolve_expr_width : M unit;
  get_min_eval_width : M Z;
  propagate_eval_width : Z -> M unit;
  get_value : M value
}.

(** No class of the module defines [__bool__] or [__len__], so every node
    object is true in a boolean context. *)
Definition object_truth (o : Expr) : bool := true.

(** [self.expr_eval_width] read where the code needs an integer
    ([max(self.expr_eval_width, w)], or the argument of a
    [propagate_eval_width] call). *)
Definition eval_width (self : node) : M Z :=
  w ← get_expr_eval_width self;
  match w with
  | Some w => ret w
  | None => raise TypeError
  end.

(** [_Expr.resolve_expr_width] *)
Definition base_resolve_expr_width (self : node) (op : list Expr) : M unit :=
  set_expr_eval_width self (Some 1);;
  for_each op (fun o =>
    w ← get_min_eval_width o;
    cur ← eval_width self;
    set_expr_eval_width self (Some (Z.max cur w)));;
  for_each op (fun o =>
    cur ← eval_width self;
    propagate_eval_width o cur).

(** [_Expr.propagate_eval_width] *)
Definition base_propagate_eval_width (self : node) (op : list Expr) (w : Z)
  : M unit :=
  set_expr_eval_width self (Some w);;
  for_each op (fun o => propagate_eval_width o w).

(** The check every numeric operator applies to an operand's predicted
    type: [if(op.predict_type() not in [int, bool, tp.Bit]): raise ...]. *)
Definition require_numeric (o : Expr) (msg : string) (err_ctx : ctx) : M unit :=
  t ← predict_type o;
  if numeric_like t then ret tt else raise (RDLCompileError msg err_ctx).

(** The value a width attribute holds when a computed value is stored in
    it.  Width attributes are integers in this model: a [bool] is the
    integer it denotes; a string or an enumeration member, which
    [predict_type] rejects for a width operand and on which Python fails
    at the first arithmetic use, is refused here. *)
Definition width_of_value (v : value) : outcome Z :=
  match v with
  | VInt n => Ok n
  | VBool b => Ok (Z.b2z b)
  | VStr _ | VEnum _ _ => Raise TypeError
  end.

Definition relational (cls : relop) (l r : Z) : bool :=
  match cls with
  | Eq => l =? r
  | Neq => negb (l =? r)
  | Lt => l <? r
  | Gt => l >? r
  | Leq => l <=? r
  | Geq => l >=? r
  end.

(** Stand-ins for the two built-ins the methods are parameterised by,
    used where a closed instance is evaluated: a parser that accepts no
    string, and a negative power that is refused. *)
Definition int_of_str_none : string -> option Z := fun _ => None.
Definition pow_neg_refused : Z -> Z -> outcome Z := fun _ _ => Raise ValueError.

Section Methods.

(** [int(s)] for a string [s]: the built-in parser, not part of these
    sources; [None] stands for its [ValueError]. *)
Variable int_of_str : string -> option Z.

(** [int(l ** r)] for [r < 0]: Python computes the power in floating
    point, which is outside this model. *)
Variable pow_neg : Z -> Z -> outcome Z.

(** Bound on the iterations of each parity loop. *)
Variable fuel : nat.

(** [int(v)] *)
Definition to_int (v : value) : outcome Z :=
  match v with
  | VInt n => Ok n
  | VBool b => Ok (Z.b2z b)
  | VStr s =>
      match int_of_str s with
      | Some n => Ok n
      | None => Raise ValueError
      end
  | VEnum _ _ => Raise TypeError
  end.

(** [int(l ** r)] *)
Definition int_pow (l r : Z) : outcome Z :=
  if r <? 0 then pow_neg l r else Ok (l ^ r).

(** The arithmetic of each [_BinaryIntExpr] subclass, before [trunc]. *)
Definition binary (cls : binop) (l r : Z) : outcome Z :=
  match cls with
  | Add => Ok (l + r)
  | Sub => Ok (l - r)
  | Mult => Ok (l * r)
  | Div => Py.floordiv l r
  | Mod => Py.modulo l r
  | BitwiseAnd => Ok (Z.land l r)
  | BitwiseOr => Ok (Z.lor l r)
  | BitwiseXor => Ok (Z.lxor l r)
  | BitwiseXnor => Ok (Z.lxor l (Z.lnot r))
  end.

Definition unary (cls : unop) (n : Z) : Z :=
  match cls with
  | UnaryPlus => n
  | UnaryMinus => - n
  | BitwiseInvert => Z.lnot n
  end.

Definition exp_shift (cls : shiftop) (l r : Z) : outcome Z :=
  match cls with
  | Exponent => int_pow l r
  | LShift => Py.lshift l r
  | RShift => Py.rshift l r
  end.

(** [get_ops] of the classes with one and two integer operands. *)
Definition get_op1 (op0 : Expr) : M Z :=
  x ← get_value op0; lift (to_int x).

Definition get_ops2 (op0 op1 : Expr) : M (Z * Z) :=
  x ← get_value op0; l ← lift (to_int x);
  y ← get_value op1; r ← lift (to_int y);
  ret (l, r).

(** [get_value] of each [_ReductionExpr] subclass. *)
Definition reduction_get_value (cls : redop) (self : node) (op0 : Expr)
  : M value :=
  match cls with
  | AndReduce =>
      n ← get_op1 op0;
      n ← trunc self (Z.lnot n);
      ret (VInt (Z.b2z (n =? 0)))
  | NandReduce =>
      n ← get_op1 op0;
      ret (VInt (Z.b2z (negb (n =? 0))))
  | OrReduce =>
      n ← get_op1 op0;
      ret (VInt (Z.b2z (negb (n =? 0))))
  | NorReduce =>
      n ← get_op1 op0;
      ret (VInt (Z.b2z (n =? 0)))
  | XorReduce =>
      n ← get_op1 op0;
      r ← lift (parity_loop fuel n 0 0);
      ret (VInt r.1)
  | XnorReduce =>
      n ← get_op1 op0;
      r ← lift (parity_loop fuel n 1 0);
      ret (VInt r.1)
  | BoolNot =>
      ret (VBool (negb (object_truth op0)))
  end.

(** [t in [int, bool]], the list [num_t] of [TernaryExpr.predict_type]. *)
Definition num_t (t : ty) : bool :=
  bool_decide (t = Tint) || bool_decide (t = Tbool).

(** The object at position [self] of a tree [e]: each class's methods. *)
Fixpoint obj (e : expr) (self : node) : Expr :=
  match e with
  | IntLiteral _ val width =>
      {| predict_type := ret Tint;
         resolve_expr_width := base_resolve_expr_width self [];
         get_min_eval_width := ret width;
         propagate_eval_width := base_propagate_eval_width self [];
         get_value := ret (VInt val) |}
  | BuiltinEnumLiteral _ t member =>
      {| predict_type := ret (Tenum t);
         resolve_expr_width := base_resolve_expr_width self [];
         get_min_eval_width := ret 1;
         propagate_eval_width := base_propagate_eval_width self [];
         get_value := ret (VEnum t member) |}
  | StringLiteral _ val =>
      {| predict_type := ret Tstr;
         resolve_expr_width := base_resolve_expr_width self [];
         get_min_eval_width := ret 1;
         propagate_eval_width := base_propagate_eval_width self [];
         get_value := ret (VStr val) |}
  | BinaryIntExpr cls err_ctx l r =>
      let op0 := obj l (self ++ [0%nat]) in
      let op1 := obj r (self ++ [1%nat]) in
      {| predict_type :=
           require_numeric op0
             "Left operand of expression is not a compatible numeric type"
             err_ctx;;
           require_numeric op1
             "Right operand of expression is not a compatible numeric type"
             err_ctx;;
           ret Tint;
         resolve_expr_width := base_resolve_expr_width self [op0; op1];
         get_min_eval_width :=
           a ← get_min_eval_width op0;
           b ← get_min_eval_width op1;
           ret (Z.max a b);
         propagate_eval_width := base_propagate_eval_width self [op0; op1];
         get_value :=
           lr ← get_ops2 op0 op1;
           x ← lift (binary cls lr.1 lr.2);
           VInt <$> trunc self x |}
  | UnaryIntExpr cls err_ctx n =>
      let op0 := obj n (self ++ [0%nat]) in
      {| predict_type :=
           require_numeric op0
             "Operand of expression is not a compatible numeric type"
             err_ctx;;
           ret Tint;
         resolve_expr_width := base_resolve_expr_width self [op0];
         get_min_eval_width := get_min_eval_width op0;
         propagate_eval_width := base_propagate_eval_width self [op0];
         get_value :=
           n ← get_op1 op0;
           VInt <$> trunc self (unary cls n) |}
  | RelationalExpr cls err_ctx l r =>
      let op0 := obj l (self ++ [0%nat]) in
      let op1 := obj r (self ++ [1%nat]) in
      let resolve := base_resolve_expr_width self [op0; op1] in
      {| predict_type :=
           require_numeric op0
             "Left operand of expression is not a compatible numeric type"
             err_ctx;;
           require_numeric op1
             "Right operand of expression is not a compatible numeric type"
             err_ctx;;
           ret Tbool;
         resolve_expr_width := resolve;
         get_min_eval_width := ret 1;
         propagate_eval_width := fun w => resolve;
         get_value :=
           lr ← get_ops2 op0 op1;
           ret (VBool (relational cls lr.1 lr.2)) |}
  | ReductionExpr cls err_ctx n =>
      let op0 := obj n (self ++ [0%nat]) in
      let resolve := base_resolve_expr_width self [op0] in
      {| predict_type :=
           require_numeric op0
             "Operand of expression is not a compatible numeric type"
             err_ctx;;
           ret Tint;
         resolve_expr_width := resolve;
         get_min_eval_width := ret 1;
         propagate_eval_width := fun w => resolve;
         get_value := reduction_get_value cls self op0 |}
  | BoolExpr cls err_ctx l r =>
      let op0 := obj l (self ++ [0%nat]) in
      let op1 := obj r (self ++ [1%nat]) in
      {| predict_type :=
           require_numeric op0
             "Left operand of expression is not a compatible boolean type"
             err_ctx;;
           require_numeric op1
             "Right operand of expression is not a compatible boolean type"
             err_ctx;;
           ret Tbool;
         resolve_expr_width := ret tt;
         get_min_eval_width := ret 1;
         propagate_eval_width := fun w =>
           resolve_expr_width op0;;
           resolve_expr_width op1;
         get_value :=
           x ← get_value op0;
           y ← get_value op1;
           let l := Py.to_bool x in
           let r := Py.to_bool y in
           ret (VBool match cls with
                      | BoolAnd => l && r
                      | BoolOr => l || r
                      end) |}
  | ExpShiftExpr cls err_ctx l r =>
      let op0 := obj l (self ++ [0%nat]) in
      let op1 := obj r (self ++ [1%nat]) in
      {| predict_type :=
           require_numeric op0
             "Left operand of expression is not a compatible numeric type"
             err_ctx;;
           require_numeric op1
             "Right operand of expression is not a compatible numeric type"
             err_ctx;;
           ret Tint;
         resolve_expr_width :=
           w ← get_min_eval_width op0;
           set_expr_eval_width self (Some w);;
           propagate_eval_width op0 w;
         get_min_eval_width := get_min_eval_width op0;
         propagate_eval_width := fun w =>
           set_expr_eval_width self (Some w);;
           propagate_eval_width op0 w;;
           resolve_expr_width op1;
         get_value :=
           lr ← get_ops2 op0 op1;
           x ← lift (exp_shift cls lr.1 lr.2);
           VInt <$> trunc self x |}
  | TernaryExpr err_ctx i j k =>
      let op0 := obj i (self ++ [0%nat]) in
      let op1 := obj j (self ++ [1%nat]) in
      let op2 := obj k (self ++ [2%nat]) in
      {| predict_type :=
           require_numeric op0
             "Conditional operand of expression is not a compatible boolean type"
             err_ctx;;
           t_j ← predict_type op1;
           t_k ← predict_type op2;
           if num_t t_j && num_t t_k then ret Tint
           else if bool_decide (t_j ≠ t_k) then
             raise (RDLCompileError
               "True/False results of ternary conditional are not compatible types"
               err_ctx)
           else ret t_j;
         resolve_expr_width :=
           wj ← get_min_eval_width op1;
           wk ← get_min_eval_width op2;
           let w := Z.max 1 (Z.max wj wk) in
           set_expr_eval_width self (Some w);;
           propagate_eval_width op1 w;;
           cur ← eval_width self;
           propagate_eval_width op2 cur;
         get_min_eval_width :=
           a ← get_min_eval_width op1;
           b ← get_min_eval_width op2;
           ret (Z.max a b);
         propagate_eval_width := fun w =>
           set_expr_eval_width self (Some w);;
           propagate_eval_width op1 w;;
           propagate_eval_width op2 w;;
           resolve_expr_width op0;
         get_value :=
           x ← get_value op0;
           let i := Py.to_bool x in
           j ← get_value op1;
           k ← get_value op2;
           ret (if i then j else k) |}
  | WidthCast err_ctx v w_expr w_int =>
      let op0 := obj v (self ++ [0%nat]) in
      (* [self.op[1]]: the operand list has a second entry only when a
         width expression was given. *)
      let op1 : M Expr :=
        match w_expr with
        | Some we => ret (obj we (self ++ [1%nat]))
        | None => raise IndexError
        end in
      let resolve_cast_width : M unit :=
        cw ← get_cast_width self;
        match cw with
        | Some _ => ret tt
        | None =>
            o ← op1;
            resolve_expr_width o;;
            x ← get_value o;
            w ← lift (width_of_value x);
            set_cast_width self (Some w)
        end in
      let resolve : M unit :=
        resolve_cast_width;;
        cw ← get_cast_width self;
        set_expr_eval_width self cw;;
        w ← get_min_eval_width op0;
        cur ← eval_width self;
        set_expr_eval_width self (Some (Z.max cur w));;
        propagate_eval_width op0 (Z.max cur w) in
      {| predict_type :=
           cw ← get_cast_width self;
           match cw with
           | None =>
               o ← op1;
               require_numeric o
                 "Width operand of cast expression is not a compatible numeric type"
                 err_ctx
           | Some _ => ret tt
           end;;
           require_numeric op0
             "Value operand of cast expression cannot be cast to an integer"
             err_ctx;;
           ret Tint;
         resolve_expr_width := resolve;
         get_min_eval_width :=
           resolve_cast_width;;
           cw ← get_cast_width self;
           match cw with
           | Some w => ret w
           | None => raise TypeError
           end;
         propagate_eval_width := fun w => resolve;
         get_value :=
           n ← get_op1 op0;
           cw ← get_cast_width self;
           set_expr_eval_width self cw;;
           VInt <$> trunc self n |}
  | BoolCast err_ctx n =>
      let op0 := obj n (self ++ [0%nat]) in
      let resolve := base_resolve_expr_width self [op0] in
      {| predict_type :=
           require_numeric op0
             "Value operand of cast expression cannot be cast to a boolean"
             err_ctx;;
           ret Tbool;
         resolve_expr_width := resolve;
         get_min_eval_width := ret 1;
         propagate_eval_width := fun w => resolve;
         get_value :=
           n ← get_op1 op0;
           ret (VBool (negb (n =? 0))) |}
  | AssignmentCast err_ctx v dest_type =>
      let op0 := obj v (self ++ [0%nat]) in
      let resolve := base_resolve_expr_width self [op0] in
      let incompatible : exn :=
        RDLCompileError
          "Assignment is not compatible with the destination type" err_ctx in
      {| predict_type :=
           op_type ← predict_type op0;
           if numeric_like dest_type then
             if numeric_like op_type then ret dest_type
             else raise incompatible
           else if bool_decide (dest_type = TArray) then
             if bool_decide (op_type ≠ TArray) then raise incompatible
             else raise NotImplementedError
           else if bool_decide (dest_type ≠ op_type) then raise incompatible
           else ret dest_type;
         resolve_expr_width := resolve;
         get_min_eval_width := get_min_eval_width op0;
         propagate_eval_width := fun w => resolve;
         get_value :=
           v ← get_value op0;
           if bool_decide (dest_type = Tbool) then
             ret (VBool (Py.to_bool v))
           else if bool_decide (dest_type = TBit) then
             n ← lift (to_int v);
             ret (VInt (Z.land n 1))
           else ret v |}
  end.

(** [self.op], the operand list of each class. *)
Definition op (e : expr) : list expr :=
  match e with
  | IntLiteral _ _ _ | BuiltinEnumLiteral _ _ _ | StringLiteral _ _ => []
  | BinaryIntExpr _ _ l r | RelationalExpr _ _ l r
  | BoolExpr _ _ l r | ExpShiftExpr _ _ l r => [l; r]
  | UnaryIntExpr _ _ n | ReductionExpr _ _ n | BoolCast _ n
  | AssignmentCast _ n _ => [n]
  | TernaryExpr _ i j k => [i; j; k]
  | WidthCast _ v (Some w_expr) _ => [v; w_expr]
  | WidthCast _ v None _ => [v]
  end.

(** What the consumer does with a top-level expression: type prediction
    once, width resolution once at the root, then evaluation. *)
Definition evaluate (e : expr) : M (ty * value) :=
  let root := obj e [] in
  t ← predict_type root;
  resolve_expr_width root;;
  v ← get_value root;
  ret (t, v).

(** The kinds whose [propagate_eval_width] starts a new width context. *)
Definition starts_new_context (e : expr) : bool :=
  match e with
  | RelationalExpr _ _ _ _ | ReductionExpr _ _ _ | BoolExpr _ _ _ _
  | WidthCast _ _ _ _ | BoolCast _ _ | AssignmentCast _ _ _ => true
  | _ => false
  end.

(** The classes whose [resolve_expr_width] starts from the width 1: those
    that inherit [_Expr.resolve_expr_width], and the ternary. *)
Definition resolves_from_one (e : expr) : bool :=
  match e with
  | BoolExpr _ _ _ _ | ExpShiftExpr _ _ _ _ | WidthCast _ _ _ _ => false
  | _ => true
  end.

(** The nodes [get_min_eval_width] visits from [e] all have their cast
    width at hand: every [WidthCast] it reaches has [cast_width] set. *)
Fixpoint cast_widths_known (e : expr) (self : node) (h : heap) : bool :=
  match e with
  | IntLiteral _ _ _ | BuiltinEnumLiteral _ _ _ | StringLiteral _ _ => true
  | BinaryIntExpr _ _ l r =>
      cast_widths_known l (self ++ [0%nat]) h
      && cast_widths_known r (self ++ [1%nat]) h
  | UnaryIntExpr _ _ n | AssignmentCast _ n _ =>
      cast_widths_known n (self ++ [0%nat]) h
  | RelationalExpr _ _ _ _ | ReductionExpr _ _ _ | BoolExpr _ _ _ _
  | BoolCast _ _ => true
  | ExpShiftExpr _ _ l _ => cast_widths_known l (self ++ [0%nat]) h
  | TernaryExpr _ _ j k =>
      cast_widths_known j (self ++ [1%nat]) h
      && cast_widths_known k (self ++ [2%nat]) h
  | WidthCast _ _ _ _ => bool_decide (is_Some (cast_width h !! self))
  end.

(** ** Locality *)

(** [h'] agrees with [h] on the attributes of every node that is not
    in the subtree rooted at [p]. *)
Definition unchanged_outside (p : node) (h h' : heap) : Prop :=
  forall q, ¬ p `prefix_of` q ->
    expr_eval_width h' !! q = expr_eval_width h !! q
    /\ cast_width h' !! q = cast_width h !! q.

(** A computation that, when it returns, has changed nothing outside
    the subtree at [p]. *)
Definition confined {A} (p : node) (m : M A) : Prop :=
  forall h a h', m h = Ok (a, h') -> unchanged_outside p h h'.

Record local (p : node) (o : Expr) : Prop := {
  local_predict_type : confined p (predict_type o);
  local_resolve_expr_width : confined p (resolve_expr_width o);
  local_get_min_eval_width : confined p (get_min_eval_width o);
  local_propagate_eval_width : forall w, confined p (propagate_eval_width o w);
  local_get_value : confined p (get_value o)
}.

(** ** Isolation *)

(** [h1] and [h2] hold the same attributes at every node of the subtree
    rooted at [p]; outside it they may differ. *)
Definition agree_inside (p : node) (h1 h2 : heap) : Prop :=
  forall q, p `prefix_of` q ->
    expr_eval_width h1 !! q = expr_eval_width h2 !! q
    /\ cast_width h1 !! q = cast_width h2 !! q.

(** Two calls ended alike: the same exception, or the same result with
    heaps that agree on the subtree at [p]. *)
Definition same_result {A} (p : node) (o1 o2 : outcome (A * heap)) : Prop :=
  match o1, o2 with
  | Ok (a1, h1), Ok (a2, h2) => a1 = a2 /\ agree_inside p h1 h2
  | Raise e1, Raise e2 => e1 = e2
  | OutOfFuel, OutOfFuel => True
  | _, _ => False
  end.

(** A computation whose outcome, and whose effect on the subtree at [p],
    depend on the attributes of that subtree only. *)
Definition determined_inside {A} (p : node) (m : M A) : Prop :=
  forall h1 h2, agree_inside p h1 h2 -> same_result p (m h1) (m h2).

Record isolated (p : node) (o : Expr) : Prop := {
  isolated_predict_type : determined_inside p (predict_type o);
  isolated_resolve_expr_width : determined_inside p (resolve_expr_width o);
  isolated_get_min_eval_width : determined_inside p (get_min_eval_width o);
  isolated_propagate_eval_width :
    forall w, determined_inside p (propagate_eval_width o w);
  isolated_get_value : determined_inside p (get_value o)
}.

(** ** Running a freshly constructed tree *)

Definition value_of {A} (r : outcome (A * heap)) : outcome A :=
  match r with
  | Ok (a, _) => Ok a
  | Raise e => Raise e
  | OutOfFuel => OutOfFuel
  end.

Definition heap_of {A} (r : outcome (A * heap)) : heap :=
  match r with
  | Ok (_, h) => h
  | _ => empty_heap
  end.

(** The heap right after the parser has built [e] as a root. *)
Definition fresh (e : expr) : heap := construct e [] empty_heap.

(** Build [e], then run the consumer's three calls on it. *)
Definition elaborate (e : expr) : outcome (ty * value) :=
  value_of (evaluate e (fresh e)).

(** ** Example trees *)

(** [IntLiteral(val, width)] *)
Definition lit (val width : Z) : expr := IntLiteral 0%nat val width.

(** [2 + 3] *)
Definition two_plus_three : expr :=
  BinaryIntExpr Add 0%nat (lit 2 64) (lit 3 64).

(** [1 << (2 + 3)] *)
Definition shift_root : expr :=
  ExpShiftExpr LShift 0%nat (lit 1 64) two_plus_three.

(** [(2 + 3) ? 1 : 0] *)
Definition ternary_root : expr :=
  TernaryExpr 0%nat two_plus_three (lit 1 64) (lit 0 64).

(** [(2 + 3) && 1] *)
Definition bool_root : expr :=
  BoolExpr BoolAnd 0%nat two_plus_three (lit 1 64).

(** [((2 + 3) && 1) ? 1 : 0] assigned to an integer property. *)
Definition assigned_ternary : expr :=
  AssignmentCast 0%nat
    (TernaryExpr 0%nat bool_root (lit 1 64) (lit 0 64)) Tint.

(** [WidthCast(IntLiteral(300, width=64), w_int=8)] *)
Definition cast_example : expr := WidthCast 0%nat (lit 300 64) None 8.

(** [WidthCast(IntLiteral(5), w_expr=IntLiteral(8))] *)
Definition cast_dynamic : expr :=
  WidthCast 0%nat (lit 5 64) (Some (lit 8 64)) 64.

(** [&(4'b1111)] and [~&(4'b1111)] *)
Definition and_ones : expr := ReductionExpr AndReduce 0%nat (lit 15 4).
Definition nand_ones : expr := ReductionExpr NandReduce 0%nat (lit 15 4).

(** [Div(IntLiteral(-7), IntLiteral(2))] and the same for [Mod]. *)
Definition div_negative : expr :=
  BinaryIntExpr Div 0%nat (lit (-7) 64) (lit 2 64).
Definition mod_negative : expr :=
  BinaryIntExpr Mod 0%nat (lit (-7) 64) (lit 2 64).

(** [XorReduce(IntLiteral(-1))], [XnorReduce(IntLiteral(-1))] and
    [XorReduce(IntLiteral(0b111111, width=4))]. *)
Definition xor_negative : expr := ReductionExpr XorReduce 0%nat (lit (-1) 64).
Definition xnor_negative : expr := ReductionExpr XnorReduce 0%nat (lit (-1) 64).
Definition xor_wide : expr := ReductionExpr XorReduce 0%nat (lit 63 4).

(** [1 ? AssignmentCast(1, Bit) : 0] and the same with both branches
    cast to [Bit]. *)
Definition bit_branch : expr := AssignmentCast 0%nat (lit 1 64) TBit.
Definition ternary_bit : expr :=
  TernaryExpr 0%nat (lit 1 64) bit_branch (lit 0 64).
Definition ternary_bit_bit : expr :=
  TernaryExpr 0%nat (lit 1 64) bit_branch bit_branch.

(** [IntLiteral(1, width=0) << 1] and
    [WidthCast(IntLiteral(5, width=0), w_int=0)]. *)
Definition shift_zero : expr :=
  ExpShiftExpr LShift 0%nat (lit 1 0) (lit 1 64).
Definition cast_zero : expr := WidthCast 0%nat (lit 5 0) None 0.

(** [!0] *)
Definition not_zero : expr := ReductionExpr BoolNot 0%nat (lit 0 64).

(** The consumer's protocol on the tree [e] goes wrong at the node [p]:
    type prediction succeeds, width resolution at the root returns and
    leaves [p] with [expr_eval_width = None], and evaluation then raises
    [TypeError]. *)
Definition crashes_unresolved (e : expr) (p : node) : Prop :=
  exists t h1,
    predict_type (obj e []) (fresh e) = Ok (t, fresh e)
    /\ resolve_expr_width (obj e []) (fresh e) = Ok (tt, h1)
    /\ expr_eval_width h1 !! p = None
    /\ get_value (obj e []) h1 = Raise TypeError.

(** ** Notions used by the further properties *)

(** Every node of the tree at [self], with its position. *)
Fixpoint subtrees (e : expr) (self : node) : list (node * expr) :=
  (self, e) ::
  match e with
  | IntLiteral _ _ _ | BuiltinEnumLiteral _ _ _ | StringLiteral _ _ => []
  | BinaryIntExpr _ _ l r | RelationalExpr _ _ l r
  | BoolExpr _ _ l r | ExpShiftExpr _ _ l r =>
      subtrees l (self ++ [0%nat]) ++ subtrees r (self ++ [1%nat])
  | UnaryIntExpr _ _ n | ReductionExpr _ _ n | BoolCast _ n
  | AssignmentCast _ n _ =>
      subtrees n (self ++ [0%nat])
  | TernaryExpr _ i j k =>
      subtrees i (self ++ [0%nat]) ++ subtrees j (self ++ [1%nat])
      ++ subtrees k (self ++ [2%nat])
  | WidthCast _ v (Some we) _ =>
      subtrees v (self ++ [0%nat]) ++ subtrees we (self ++ [1%nat])
  | WidthCast _ v None _ => subtrees v (self ++ [0%nat])
  end.

(** Trees made of literals and of the operators that inherit both
    [_Expr.resolve_expr_width] and [_Expr.propagate_eval_width]: the binary
    and unary integer operators. *)
Fixpoint context_determined (e : expr) : bool :=
  match e with
  | IntLiteral _ _ _ | BuiltinEnumLiteral _ _ _ | StringLiteral _ _ => true
  | BinaryIntExpr _ _ l r => context_determined l && context_determined r
  | UnaryIntExpr _ _ n => context_determined n
  | _ => false
  end.

(** The minimum width of a context-determined tree, read off the literals. *)
Fixpoint min_width (e : expr) : Z :=
  match e with
  | IntLiteral _ _ width => width
  | BinaryIntExpr _ _ l r => Z.max (min_width l) (min_width r)
  | UnaryIntExpr _ _ n => min_width n
  | _ => 1
  end.

(** The classes that inherit [_Expr.resolve_expr_width]. *)
Definition inherits_resolve (e : expr) : bool :=
  match e with
  | BoolExpr _ _ _ _ | ExpShiftExpr _ _ _ _ | TernaryExpr _ _ _ _
  | WidthCast _ _ _ _ => false
  | _ => true
  end.

(** [max] of 1 and of the operands' minimum widths. *)
Definition operands_width (e : expr) : Z :=
  foldr Z.max 1 (min_width <$> op e).

(** The runtime class of a value against a predicted type: the three
    numeric-like types are met by integers and booleans alike. *)
Definition has_type (v : value) (t : ty) : bool :=
  match t, v with
  | (Tint | Tbool | TBit), (VInt _ | VBool _) => true
  | Tstr, VStr _ => true
  | Tenum t, VEnum t' _ => bool_decide (t = t')
  | _, _ => false
  end.

(** In the tree at [self], every width cast that has a width expression
    has not evaluated it yet. *)
Fixpoint width_exprs_pending (e : expr) (self : node) (h : heap) : bool :=
  match e with
  | IntLiteral _ _ _ | BuiltinEnumLiteral _ _ _ | StringLiteral _ _ => true
  | BinaryIntExpr _ _ l r | RelationalExpr _ _ l r
  | BoolExpr _ _ l r | ExpShiftExpr _ _ l r =>
      width_exprs_pending l (self ++ [0%nat]) h
      && width_exprs_pending r (self ++ [1%nat]) h
  | UnaryIntExpr _ _ n | ReductionExpr _ _ n | BoolCast _ n
  | AssignmentCast _ n _ =>
      width_exprs_pending n (self ++ [0%nat]) h
  | TernaryExpr _ i j k =>
      width_exprs_pending i (self ++ [0%nat]) h
      && width_exprs_pending j (self ++ [1%nat]) h
      && width_exprs_pending k (self ++ [2%nat]) h
  | WidthCast _ v (Some we) _ =>
      bool_decide (cast_width h !! self = None)
      && width_exprs_pending v (self ++ [0%nat]) h
      && width_exprs_pending we (self ++ [1%nat]) h
  | WidthCast _ v None _ => width_exprs_pending v (self ++ [0%nat]) h
  end.

(** Trees without a width cast. *)
Fixpoint cast_free (e : expr) : bool :=
  match e with
  | IntLiteral _ _ _ | BuiltinEnumLiteral _ _ _ | StringLiteral _ _ => true
  | BinaryIntExpr _ _ l r | RelationalExpr _ _ l r
  | BoolExpr _ _ l r | ExpShiftExpr _ _ l r => cast_free l && cast_free r
  | UnaryIntExpr _ _ n | ReductionExpr _ _ n | BoolCast _ n
  | AssignmentCast _ n _ => cast_free n
  | TernaryExpr _ i j k => cast_free i && cast_free j && cast_free k
  | WidthCast _ _ _ _ => false
  end.

(** The operators that commute with reduction modulo a power of two: all
    binary integer operators but [Div] and [Mod]. *)
Definition modular_op (cls : binop) : bool :=
  match cls with
  | Div | Mod => false
  | _ => true
  end.

(** Trees of integer literals, modular binary operators and unary
    operators. *)
Fixpoint modular (e : expr) : bool :=
  match e with
  | IntLiteral _ _ _ => true
  | BinaryIntExpr cls _ l r => modular_op cls && modular l && modular r
  | UnaryIntExpr _ _ n => modular n
  | _ => false
  end.

(** The value of a modular tree in unbounded integers. *)
Fixpoint exact (e : expr) : Z :=
  match e with
  | IntLiteral _ val _ => val
  | BinaryIntExpr cls _ l r =>
      match cls with
      | Add => exact l + exact r
      | Sub => exact l - exact r
      | Mult => exact l * exact r
      | BitwiseAnd => Z.land (exact l) (exact r)
      | BitwiseOr => Z.lor (exact l) (exact r)
      | BitwiseXor => Z.lxor (exact l) (exact r)
      | BitwiseXnor => Z.lxor (exact l) (Z.lnot (exact r))
      | Div | Mod => 0
      end
  | UnaryIntExpr cls _ n =>
      match cls with
      | UnaryPlus => exact n
      | UnaryMinus => - exact n
      | BitwiseInvert => Z.lnot (exact n)
      end
  | _ => 0
  end.

Definition is_literal (e : expr) : bool :=
  match e with
  | IntLiteral _ _ _ | BuiltinEnumLiteral _ _ _ | StringLiteral _ _ => true
  | _ => false
  end.

(** The exclusive or of the bits [i], [i+1], ..., [i+k-1] of [n]. *)
Fixpoint bit_parity_from (k : nat) (i : Z) (n : Z) : bool :=
  match k with
  | O => false
  | S k => xorb (Z.testbit n i) (bit_parity_from k (i + 1) n)
  end.

(** The parity of the [k] low bits of [n]. *)
Definition bit_parity (k : nat) (n : Z) : bool := bit_parity_from k 0 n.

(** The classes whose [get_value] ends in [trunc]. *)
Definition truncates (e : expr) : bool :=
  match e with
  | BinaryIntExpr _ _ _ _ | UnaryIntExpr _ _ _ | ExpShiftExpr _ _ _ _
  | WidthCast _ _ _ _ => true
  | _ => false
  end.

(** The node [q] has the same attributes in [h] and [h']. *)
Definition same_at (q : node) (h h' : heap) : Prop :=
  expr_eval_width h' !! q = expr_eval_width h !! q
  /\ cast_width h' !! q = cast_width h !! q.

(** ** Reasoning rules *)

(** Induction over trees through their operand lists. *)
Lemma expr_op_ind (P : expr -> Prop) :
  (forall e, Forall P (op e) -> P e) -> forall e, P e.
Proof.
  intros step. fix IH 1. intros e. apply step.
  destruct e as [| | | | | | | | | | ? ? [we|] ?| |]; simpl;
    repeat constructor; apply IH.
Qed.

(** The mask of [trunc] keeps the value modulo a power of two. *)
Lemma land_mask (v w : Z) :
  0 <= w -> Z.land v (Z.shiftl 1 w - 1) = v mod 2 ^ w.
Proof.
  intros Hw. rewrite Z.shiftl_1_l, Z.sub_1_r, <- Z.ones_equiv.
  now apply Z.land_ones.
Qed.

Lemma bind_Ok {A B} (m : M A) (k : A -> M B) h b h' :
  (m ≫= k) h = Ok (b, h') ->
  exists a h1, m h = Ok (a, h1) /\ k a h1 = Ok (b, h').
Proof.
  unfold mbind, M_bind, bind. destruct (m h) as [[a h1]| |]; try discriminate.
  eauto.
Qed.

Lemma bind_eq {A B} (m : M A) (k : A -> M B) h a h1 :
  m h = Ok (a, h1) -> (m ≫= k) h = k a h1.
Proof. unfold mbind, M_bind, bind. now intros ->. Qed.

Lemma fmap_Ok {A B} (f : A -> B) (m : M A) h b h' :
  (f <$> m) h = Ok (b, h') -> exists a, m h = Ok (a, h') /\ b = f a.
Proof.
  unfold fmap, M_fmap, bind, ret. destruct (m h) as [[a h1]| |]; try discriminate.
  intros [= <- <-]. eauto.
Qed.

Lemma lift_Ok {A} (o : outcome A) h a h' :
  lift o h = Ok (a, h') -> o = Ok a /\ h' = h.
Proof. destruct o; simpl; try discriminate. now intros [= -> ->]. Qed.

Lemma trunc_Ok (self : node) (v w : Z) h :
  expr_eval_width h !! self = Some w -> 0 <= w ->
  trunc self v h = Ok (v mod 2 ^ w, h).
Proof.
  intros Hw Hpos. unfold trunc, get_expr_eval_width, mbind, M_bind, bind.
  rewrite Hw. unfold Py.lshift. simpl.
  destruct (Z.ltb_spec w 0) as [|_]; [lia|]. simpl.
  unfold ret. now rewrite land_mask.
Qed.

(** *** Locality: a method only touches its own subtree *)

Lemma unchanged_outside_refl p h : unchanged_outside p h h.
Proof. now intros q _. Qed.

Lemma unchanged_outside_trans p h1 h2 h3 :
  unchanged_outside p h1 h2 -> unchanged_outside p h2 h3 ->
  unchanged_outside p h1 h3.
Proof.
  intros H12 H23 q Hq.
  destruct (H12 q Hq) as [E1 E2], (H23 q Hq) as [E3 E4].
  split; congruence.
Qed.

Lemma unchanged_outside_weaken p p' h h' :
  p `prefix_of` p' -> unchanged_outside p' h h' -> unchanged_outside p h h'.
Proof.
  intros Hp H q Hq. apply H. intros Hp'. apply Hq. now transitivity p'.
Qed.

Lemma confined_weaken {A} p p' (m : M A) :
  p `prefix_of` p' -> confined p' m -> confined p m.
Proof. intros Hp H h a h' Hm. eapply unchanged_outside_weaken; eauto. Qed.

Lemma confined_ret {A} p (a : A) : confined p (ret a).
Proof. intros h a' h' [= _ <-]. apply unchanged_outside_refl. Qed.

Lemma confined_raise {A} p e : confined p (@raise A e).
Proof. intros h a h' [=]. Qed.

Lemma confined_lift {A} p (o : outcome A) : confined p (lift o).
Proof.
  intros h a h' [_ ->]%lift_Ok. apply unchanged_outside_refl.
Qed.

Lemma confined_bind {A B} p (m : M A) (k : A -> M B) :
  confined p m -> (forall a, confined p (k a)) -> confined p (m ≫= k).
Proof.
  intros Hm Hk h b h' (a & h1 & H1 & H2)%bind_Ok.
  eapply unchanged_outside_trans; [eapply Hm | eapply Hk]; eauto.
Qed.

Lemma confined_ret_bind {A B} p (a : A) (k : A -> M B) :
  confined p (k a) -> confined p (ret a ≫= k).
Proof. intros Hk h b h' H. now apply (Hk h b h'). Qed.

Lemma confined_fmap {A B} p (f : A -> B) (m : M A) :
  confined p m -> confined p (f <$> m).
Proof. intros Hm h b h' (a & H & _)%fmap_Ok. eapply Hm; eauto. Qed.

Lemma confined_get_expr_eval_width p q : confined p (get_expr_eval_width q).
Proof. intros h a h' [= _ <-]. apply unchanged_outside_refl. Qed.

Lemma confined_get_cast_width p q : confined p (get_cast_width q).
Proof. intros h a h' [= _ <-]. apply unchanged_outside_refl. Qed.

Lemma lookup_assign_ne (p q : node) (w : option Z) (m : gmap node Z) :
  p ≠ q -> assign p w m !! q = m !! q.
Proof.
  intros Hne. destruct w; simpl;
    [now apply lookup_insert_ne | now apply lookup_delete_ne].
Qed.

Lemma lookup_assign_eq (p : node) (w : option Z) (m : gmap node Z) :
  assign p w m !! p = w.
Proof.
  destruct w; simpl; [apply lookup_insert_eq | apply lookup_delete_eq].
Qed.

Lemma confined_set_expr_eval_width p w : confined p (set_expr_eval_width p w).
Proof.
  intros h a h' [= _ <-] q Hq. simpl. split; [|done].
  apply lookup_assign_ne. intros ->. now apply Hq.
Qed.

Lemma confined_set_cast_width p w : confined p (set_cast_width p w).
Proof.
  intros h a h' [= _ <-] q Hq. simpl. split; [done|].
  apply lookup_assign_ne. intros ->. now apply Hq.
Qed.

Lemma confined_for_each {A} p (l : list A) (body : A -> M unit) :
  Forall (fun x => confined p (body x)) l -> confined p (for_each l body).
Proof.
  induction 1 as [|x l Hx _ IH]; simpl.
  - apply confined_ret.
  - apply confined_bind; [exact Hx | intros _; exact IH].
Qed.

Lemma local_weaken p p' o : p `prefix_of` p' -> local p' o -> local p o.
Proof.
  intros Hp [H1 H2 H3 H4 H5].
  split; try intros w; eapply confined_weaken; eauto.
Qed.

Lemma local_child p i o : local (p ++ [i]) o -> local p o.
Proof. apply local_weaken. now apply prefix_app_r. Qed.

Create HintDb confined.
Hint Resolve confined_ret confined_raise confined_lift
  confined_get_expr_eval_width confined_get_cast_width
  confined_set_expr_eval_width confined_set_cast_width
  local_predict_type local_resolve_expr_width local_get_min_eval_width
  local_propagate_eval_width local_get_value : confined.

(** One step of a locality proof: follow the shape of the computation. *)
Ltac confined_step :=
  match goal with
  | |- confined _ (ret _ ≫= _) => apply confined_ret_bind
  | |- confined _ (raise _ ≫= _) => intros ? ? ? [=]
  | |- confined _ (_ ≫= _) => apply confined_bind; [|intros ?]
  | |- confined _ (_ <$> _) => apply confined_fmap
  | |- confined _ (match ?x with _ => _ end) => destruct x
  | |- confined _ _ => solve [eauto with confined]
  | |- confined _ _ =>
      progress unfold trunc, eval_width, require_numeric, get_op1, get_ops2,
        reduction_get_value
  end.

Lemma base_resolve_expr_width_confined p ops :
  Forall (local p) ops -> confined p (base_resolve_expr_width p ops).
Proof.
  intros Hops. unfold base_resolve_expr_width.
  repeat (apply confined_bind; [|intros ?]); eauto with confined.
  - apply confined_for_each. eapply Forall_impl; [exact Hops|].
    intros o Ho; simpl. repeat confined_step.
  - apply confined_for_each. eapply Forall_impl; [exact Hops|].
    intros o Ho; simpl. repeat confined_step.
Qed.

Lemma base_propagate_eval_width_confined p ops w :
  Forall (local p) ops -> confined p (base_propagate_eval_width p ops w).
Proof.
  intros Hops. unfold base_propagate_eval_width.
  apply confined_bind; [eauto with confined|intros _].
  apply confined_for_each. eapply Forall_impl; [exact Hops|].
  intros o Ho; simpl. eauto with confined.
Qed.

(** Every method of the node at [self] leaves the rest of the tree
    alone. *)
Lemma obj_local (e : expr) : forall self, local self (obj e self).
Proof.
  induction e as [e IH] using expr_op_ind. intros self.
  destruct e as [| | | | | | | | | | ? ? [we|] ?| |]; simpl in IH;
    repeat match goal with
           | H : Forall _ (_ :: _) |- _ =>
               let H1 := fresh "Hop" in
               apply Forall_cons in H as [H1 H]
           end;
    simpl;
    repeat match goal with
           | H : forall p, local p (obj ?x p) |- _ =>
               let i := match goal with
                        | |- context [obj x (self ++ [?i])] => i
                        end in
               let H' := fresh "Hl" in
               pose proof (local_child self i _ (H (self ++ [i]))) as H';
               clear H
           end.
  all: split; [| | |intros w|]; simpl.
  all: try (first [apply base_resolve_expr_width_confined
                  |apply base_propagate_eval_width_confined];
            repeat (apply Forall_cons_2; [assumption|]); apply Forall_nil_2).
  all: repeat confined_step.
Qed.

(** *** Isolation: a method only reads its own subtree *)

Lemma agree_inside_weaken p p' h1 h2 :
  p `prefix_of` p' -> agree_inside p h1 h2 -> agree_inside p' h1 h2.
Proof. intros Hp H q Hq. apply H. now transitivity p'. Qed.

Lemma determined_ret {A} p (a : A) : determined_inside p (ret a).
Proof. intros h1 h2 H. simpl. auto. Qed.

Lemma determined_raise {A} p e : determined_inside p (@raise A e).
Proof. intros h1 h2 H. reflexivity. Qed.

Lemma determined_lift {A} p (o : outcome A) : determined_inside p (lift o).
Proof. intros h1 h2 H. destruct o; simpl; auto. Qed.

Lemma determined_bind {A B} p (m : M A) (k : A -> M B) :
  determined_inside p m -> (forall a, determined_inside p (k a)) ->
  determined_inside p (m ≫= k).
Proof.
  intros Hm Hk h1 h2 H. specialize (Hm h1 h2 H).
  unfold mbind, M_bind, bind.
  destruct (m h1) as [[a1 g1]| |], (m h2) as [[a2 g2]| |]; simpl in Hm;
    try contradiction; auto.
  destruct Hm as [<- Hg]. now apply Hk.
Qed.

Lemma determined_ret_bind {A B} p (a : A) (k : A -> M B) :
  determined_inside p (k a) -> determined_inside p (ret a ≫= k).
Proof. intros Hk h1 h2 H. now apply (Hk h1 h2). Qed.

Lemma determined_raise_bind {A B} p e (k : A -> M B) :
  determined_inside p (raise e ≫= k).
Proof. intros h1 h2 H. reflexivity. Qed.

Lemma determined_fmap {A B} p (f : A -> B) (m : M A) :
  determined_inside p m -> determined_inside p (f <$> m).
Proof.
  intros Hm. apply determined_bind; [exact Hm|]. intros a.
  apply determined_ret.
Qed.

Lemma determined_get_expr_eval_width p :
  determined_inside p (get_expr_eval_width p).
Proof.
  intros h1 h2 H. simpl. split; [|exact H]. now apply (H p).
Qed.

Lemma determined_get_cast_width p : determined_inside p (get_cast_width p).
Proof.
  intros h1 h2 H. simpl. split; [|exact H]. now apply (H p).
Qed.

Lemma determined_set_expr_eval_width p w :
  determined_inside p (set_expr_eval_width p w).
Proof.
  intros h1 h2 H. simpl. split; [reflexivity|]. intros q Hq. simpl.
  split; [|now apply H].
  destruct (decide (p = q)) as [<-|Hne].
  - now rewrite !lookup_assign_eq.
  - rewrite !lookup_assign_ne by exact Hne. now apply H.
Qed.

Lemma determined_set_cast_width p w :
  determined_inside p (set_cast_width p w).
Proof.
  intros h1 h2 H. simpl. split; [reflexivity|]. intros q Hq. simpl.
  split; [now apply H|].
  destruct (decide (p = q)) as [<-|Hne].
  - now rewrite !lookup_assign_eq.
  - rewrite !lookup_assign_ne by exact Hne. now apply H.
Qed.

Lemma determined_for_each {A} p (l : list A) (body : A -> M unit) :
  Forall (fun x => determined_inside p (body x)) l ->
  determined_inside p (for_each l body).
Proof.
  induction 1 as [|x l Hx _ IH]; simpl.
  - apply determined_ret.
  - apply determined_bind; [exact Hx | intros _; exact IH].
Qed.

(** A call on an operand, seen from the parent: what the operand leaves
    alone is still the same in both runs. *)
Lemma determined_weaken {A} p p' (m : M A) :
  p `prefix_of` p' -> confined p' m -> determined_inside p' m ->
  determined_inside p m.
Proof.
  intros Hp Hc Hd h1 h2 H.
  specialize (Hd h1 h2 (agree_inside_weaken _ _ _ _ Hp H)).
  pose proof (Hc h1) as C1. pose proof (Hc h2) as C2.
  destruct (m h1) as [[a1 g1]| |], (m h2) as [[a2 g2]| |]; simpl in Hd |- *;
    try contradiction; auto.
  destruct Hd as [<- Hg]. split; [reflexivity|]. intros q Hq.
  destruct (decide (p' `prefix_of` q)) as [Hin|Hout].
  - now apply Hg.
  - destruct (C1 _ _ eq_refl q Hout) as [E1 E2].
    destruct (C2 _ _ eq_refl q Hout) as [E3 E4].
    destruct (H q Hq) as [E5 E6]. split; congruence.
Qed.

Lemma isolated_child p i o :
  local (p ++ [i]) o -> isolated (p ++ [i]) o -> isolated p o.
Proof.
  intros [L1 L2 L3 L4 L5] [H1 H2 H3 H4 H5].
  assert (p `prefix_of` p ++ [i]) as Hp by apply prefix_app_r, reflexivity.
  split; [| | |intros w|];
    apply (determined_weaken p (p ++ [i])); auto.
Qed.

Create HintDb determined.
Hint Resolve determined_ret determined_raise determined_lift
  determined_get_expr_eval_width determined_get_cast_width
  determined_set_expr_eval_width determined_set_cast_width
  isolated_predict_type isolated_resolve_expr_width
  isolated_get_min_eval_width isolated_propagate_eval_width
  isolated_get_value : determined.

(** One step of an isolation proof: follow the shape of the computation. *)
Ltac determined_step :=
  match goal with
  | |- determined_inside _ (ret _ ≫= _) => apply determined_ret_bind
  | |- determined_inside _ (raise _ ≫= _) => apply determined_raise_bind
  | |- determined_inside _ (_ ≫= _) => apply determined_bind; [|intros ?]
  | |- determined_inside _ (_ <$> _) => apply determined_fmap
  | |- determined_inside _ (match ?x with _ => _ end) => destruct x
  | |- determined_inside _ _ => solve [eauto with determined]
  | |- determined_inside _ _ =>
      progress unfold trunc, eval_width, require_numeric, get_op1, get_ops2,
        reduction_get_value
  end.

Lemma base_resolve_expr_width_determined p ops :
  Forall (isolated p) ops ->
  determined_inside p (base_resolve_expr_width p ops).
Proof.
  intros Hops. unfold base_resolve_expr_width.
  repeat (apply determined_bind; [|intros ?]); eauto with determined.
  - apply determined_for_each. eapply Forall_impl; [exact Hops|].
    intros o Ho; simpl. repeat determined_step.
  - apply determined_for_each. eapply Forall_impl; [exact Hops|].
    intros o Ho; simpl. repeat determined_step.
Qed.

Lemma base_propagate_eval_width_determined p ops w :
  Forall (isolated p) ops ->
  determined_inside p (base_propagate_eval_width p ops w).
Proof.
  intros Hops. unfold base_propagate_eval_width.
  apply determined_bind; [eauto with determined|intros _].
  apply determined_for_each. eapply Forall_impl; [exact Hops|].
  intros o Ho; simpl. eauto with determined.
Qed.

(** The outcome of every method of the node at [self], and what it leaves
    in the subtree at [self], depend on that subtree only: nothing is read
    from an enclosing node. *)
Lemma obj_isolated (e : expr) : forall self, isolated self (obj e self).
Proof.
  induction e as [e IH] using expr_op_ind. intros self.
  destruct e as [| | | | | | | | | | ? ? [we|] ?| |]; simpl in IH;
    repeat match goal with
           | H : Forall _ (_ :: _) |- _ =>
               let H1 := fresh "Hop" in
               apply Forall_cons in H as [H1 H]
           end;
    simpl;
    repeat match goal with
           | H : forall p, isolated p (obj ?x p) |- _ =>
               let i := match goal with
                        | |- context [obj x (self ++ [?i])] => i
                        end in
               let H' := fresh "Hl" in
               pose proof (isolated_child self i _ (obj_local x (self ++ [i]))
                             (H (self ++ [i]))) as H';
               clear H
           end.
  all: split; [| | |intros w|]; simpl.
  all: try (first [apply base_resolve_expr_width_determined
                  |apply base_propagate_eval_width_determined];
            repeat (apply Forall_cons_2; [assumption|]); apply Forall_nil_2).
  all: repeat determined_step.
Qed.

(** *** Computations that returned *)

Lemma ret_Ok {A} (a b : A) h h' : ret a h = Ok (b, h') -> b = a /\ h' = h.
Proof. now intros [= -> ->]. Qed.

Lemma get_cast_width_Ok p h a h' :
  get_cast_width p h = Ok (a, h') -> a = cast_width h !! p /\ h' = h.
Proof. now intros [= <- <-]. Qed.

Lemma set_expr_eval_width_Ok p w h a h' :
  set_expr_eval_width p w h = Ok (a, h') ->
  h' = Heap (assign p w (expr_eval_width h)) (cast_width h).
Proof. now intros [= _ <-]. Qed.

Lemma set_cast_width_Ok p w h a h' :
  set_cast_width p w h = Ok (a, h') ->
  h' = Heap (expr_eval_width h) (assign p w (cast_width h)).
Proof. now intros [= _ <-]. Qed.

Lemma eval_width_Ok p h w h' :
  eval_width p h = Ok (w, h') -> expr_eval_width h !! p = Some w /\ h' = h.
Proof.
  unfold eval_width, get_expr_eval_width, mbind, M_bind, bind.
  destruct (expr_eval_width h !! p); [|discriminate].
  now intros [= -> ->].
Qed.

(** A call on an operand leaves the attributes of the parent alone. *)
Lemma child_keeps_parent {A} (m : M A) self i h a h' :
  confined (self ++ [i]) m -> m h = Ok (a, h') ->
  expr_eval_width h' !! self = expr_eval_width h !! self
  /\ cast_width h' !! self = cast_width h !! self.
Proof.
  intros Hm Hrun. apply (Hm h a h' Hrun). apply prefix_snoc_not.
Qed.

Lemma get_op1_Ok (o : Expr) h x h' n :
  get_value o h = Ok (x, h') -> to_int x = Ok n ->
  get_op1 o h = Ok (n, h').
Proof.
  intros Hx Hn. unfold get_op1. rewrite (bind_eq _ _ _ _ _ Hx).
  now rewrite Hn.
Qed.

Lemma get_ops2_Ok (o0 o1 : Expr) h x h1 a y h2 b :
  get_value o0 h = Ok (x, h1) -> to_int x = Ok a ->
  get_value o1 h1 = Ok (y, h2) -> to_int y = Ok b ->
  get_ops2 o0 o1 h = Ok ((a, b), h2).
Proof.
  intros Hx Ha Hy Hb. unfold get_ops2.
  rewrite (bind_eq _ _ _ _ _ Hx).
  assert (lift (to_int x) h1 = Ok (a, h1)) as Hl by now rewrite Ha.
  rewrite (bind_eq _ _ _ _ _ Hl).
  rewrite (bind_eq _ _ _ _ _ Hy).
  now rewrite Hb.
Qed.

(** *** Width casts *)

(** [get_value] of a width cast truncates to [cast_width], whatever
    [expr_eval_width] was before the call. *)
Lemma WidthCast_get_value c v we wi self h x h' n w :
  get_value (obj v (self ++ [0%nat])) h = Ok (x, h') ->
  to_int x = Ok n ->
  cast_width h !! self = Some w -> 0 <= w ->
  get_value (obj (WidthCast c v we wi) self) h
  = Ok (VInt (n mod 2 ^ w),
        Heap (<[self := w]> (expr_eval_width h')) (cast_width h')).
Proof.
  intros Hx Hn Hcw Hw. simpl.
  rewrite (bind_eq _ _ _ _ _ (get_op1_Ok _ _ _ _ _ Hx Hn)).
  destruct (child_keeps_parent _ self 0%nat h x h'
              (local_get_value _ _ (obj_local v _)) Hx) as [_ Hcw'].
  rewrite Hcw in Hcw'.
  unfold get_cast_width at 1. unfold mbind at 1, M_bind at 1, bind at 1.
  rewrite Hcw'.
  unfold set_expr_eval_width. unfold mbind at 1, M_bind at 1, bind at 1.
  simpl assign. unfold fmap, M_fmap, bind.
  erewrite trunc_Ok; [reflexivity| |exact Hw].
  simpl. apply lookup_insert_eq.
Qed.

(** Resolving the width of a cast whose width is already known does not
    change that width. *)
Lemma WidthCast_resolve_keeps_cast_width c v wi self h h1 w :
  cast_width h !! self = Some w ->
  resolve_expr_width (obj (WidthCast c v None wi) self) h = Ok (tt, h1) ->
  cast_width h1 !! self = Some w.
Proof.
  intros Hcw Hres. simpl in Hres.
  apply bind_Ok in Hres as ([] & h2 & Hrcw & Hres).
  apply bind_Ok in Hrcw as (cw & ? & [-> ->]%get_cast_width_Ok & Hrcw).
  rewrite Hcw in Hrcw. apply ret_Ok in Hrcw as [_ ->].
  apply bind_Ok in Hres as (cw & ? & [-> ->]%get_cast_width_Ok & Hres).
  apply bind_Ok in Hres as ([] & h3 & ->%set_expr_eval_width_Ok & Hres).
  apply bind_Ok in Hres as (w0 & h4 & Hmin & Hres).
  apply bind_Ok in Hres as (cur & ? & [_ ->]%eval_width_Ok & Hres).
  apply bind_Ok in Hres as ([] & h6 & ->%set_expr_eval_width_Ok & Hres).
  destruct (child_keeps_parent _ self 0%nat _ _ _
              (local_get_min_eval_width _ _ (obj_local v _)) Hmin) as [_ E1].
  destruct (child_keeps_parent _ self 0%nat _ _ _
              (local_propagate_eval_width _ _ (obj_local v _) _) Hres) as [_ E2].
  simpl in *. congruence.
Qed.

(** The constructor records an integer cast width. *)
Lemma construct_cast_width c v w self h :
  cast_width (construct (WidthCast c v None w) self h) !! self = Some w.
Proof. simpl. apply lookup_insert_eq. Qed.

(** *** Binary integer operators *)

Lemma BinaryIntExpr_get_value cls c l r self h x h1 a y h2 b z w :
  get_value (obj l (self ++ [0%nat])) h = Ok (x, h1) -> to_int x = Ok a ->
  get_value (obj r (self ++ [1%nat])) h1 = Ok (y, h2) -> to_int y = Ok b ->
  binary cls a b = Ok z ->
  expr_eval_width h !! self = Some w -> 0 <= w ->
  get_value (obj (BinaryIntExpr cls c l r) self) h = Ok (VInt (z mod 2 ^ w), h2).
Proof.
  intros Hx Ha Hy Hb Hz Hw Hpos. simpl.
  rewrite (bind_eq _ _ _ _ _ (get_ops2_Ok _ _ _ _ _ _ _ _ _ Hx Ha Hy Hb)).
  simpl. rewrite Hz.
  destruct (child_keeps_parent _ self 0%nat _ _ _
              (local_get_value _ _ (obj_local l _)) Hx) as [E1 _].
  destruct (child_keeps_parent _ self 1%nat _ _ _
              (local_get_value _ _ (obj_local r _)) Hy) as [E2 _].
  unfold mbind, M_bind, bind, lift, fmap, M_fmap, bind.
  erewrite trunc_Ok; [reflexivity| |exact Hpos]. congruence.
Qed.

(** *** The parity loop *)

(** On a negative operand the loop condition never becomes false:
    [n >>= 1] keeps [n] negative. *)
Lemma parity_loop_negative (f : nat) :
  forall n v i, n < 0 -> parity_loop f n v i = OutOfFuel.
Proof.
  induction f as [|f IH]; intros n v i Hn; simpl;
    destruct (Z.eqb_spec n 0) as [->|_]; try lia; [reflexivity|].
  apply IH. now apply Z.shiftr_neg.
Qed.

(** On an operand that fits in [k] bits the loop returns after at most
    [k] iterations. *)
Lemma parity_loop_bounded (k : nat) :
  forall n v i f, 0 <= n < 2 ^ Z.of_nat k -> (k <= f)%nat ->
    exists v' j, parity_loop f n v i = Ok (v', j) /\ (j <= i + k)%nat.
Proof.
  induction k as [|k IH]; intros n v i f Hn Hf.
  - assert (n = 0) as -> by (change (2 ^ Z.of_nat 0) with 1 in Hn; lia).
    exists v, i. destruct f; simpl; split; auto; lia.
  - destruct f as [|f]; [lia|]. simpl.
    destruct (Z.eqb_spec n 0) as [->|Hnz].
    + exists v, i. split; [reflexivity|lia].
    + destruct (IH (Z.shiftr n 1) (if Z.land n 1 =? 0 then v else Z.lxor v 1)
                  (S i) f) as (v' & j & Hrun & Hj).
      * rewrite Z.shiftr_div_pow2 by lia. change (2 ^ 1) with 2.
        rewrite Nat2Z.inj_succ, Z.pow_succ_r in Hn by lia.
        split; [apply Z.div_pos; lia|apply Z.div_lt_upper_bound; lia].
      * lia.
      * exists v', j. split; [exact Hrun|lia].
Qed.

(** Starting the loop from the flipped bit flips its result: the two
    parity reductions are complements of each other when they return. *)
Lemma parity_loop_flip (f : nat) :
  forall n v i r j,
    parity_loop f n v i = Ok (r, j) ->
    parity_loop f n (Z.lxor v 1) i = Ok (Z.lxor r 1, j).
Proof.
  induction f as [|f IH]; intros n v i r j; simpl;
    destruct (n =? 0); try discriminate; try (now intros [= -> ->]).
  intros Hrun. apply IH in Hrun. now destruct (Z.land n 1 =? 0).
Qed.

(** *** Reductions *)

(** [NorReduce] is the complement of [OrReduce]. *)
Lemma NorReduce_complements_OrReduce c n self h x h' :
  get_op1 (obj n (self ++ [0%nat])) h = Ok (x, h') ->
  get_value (obj (ReductionExpr OrReduce c n) self) h
    = Ok (VInt (Z.b2z (negb (x =? 0))), h')
  /\ get_value (obj (ReductionExpr NorReduce c n) self) h
    = Ok (VInt (Z.b2z (negb (negb (x =? 0)))), h').
Proof.
  intros Hx. simpl. rewrite !(bind_eq _ _ _ _ _ Hx).
  now rewrite negb_involutive.
Qed.

(** [XnorReduce] is the complement of [XorReduce] whenever the loop
    returns. *)
Lemma XnorReduce_complements_XorReduce c n self h r h' :
  get_value (obj (ReductionExpr XorReduce c n) self) h = Ok (VInt r, h') ->
  get_value (obj (ReductionExpr XnorReduce c n) self) h
    = Ok (VInt (Z.lxor r 1), h').
Proof.
  simpl. intros (x & h1 & Hx & Hrun)%bind_Ok.
  apply bind_Ok in Hrun as ([r' j] & h2 & [Hloop ->]%lift_Ok & [= <- <-]).
  rewrite (bind_eq _ _ _ _ _ Hx).
  apply parity_loop_flip in Hloop. change (Z.lxor 0 1) with 1 in Hloop.
  unfold mbind, M_bind, bind, lift. now rewrite Hloop.
Qed.

(** The parity reductions do not return on a negative operand. *)
Lemma parity_reduce_negative c n self h x h' :
  get_op1 (obj n (self ++ [0%nat])) h = Ok (x, h') -> x < 0 ->
  get_value (obj (ReductionExpr XorReduce c n) self) h = OutOfFuel
  /\ get_value (obj (ReductionExpr XnorReduce c n) self) h = OutOfFuel.
Proof.
  intros Hx Hneg. simpl. rewrite !(bind_eq _ _ _ _ _ Hx).
  unfold mbind, M_bind, bind, lift.
  now rewrite !parity_loop_negative.
Qed.

(** *** Widths set by the base class and by the ternary *)

Lemma for_each_invariant {A} (I : heap -> Prop) (l : list A)
    (body : A -> M unit) :
  Forall (fun x => forall h u h', I h -> body x h = Ok (u, h') -> I h') l ->
  forall h u h', I h -> for_each l body h = Ok (u, h') -> I h'.
Proof.
  induction 1 as [|x l Hx _ IH]; simpl; intros h u h' Hh Hrun.
  - apply ret_Ok in Hrun as [_ ->]. exact Hh.
  - apply bind_Ok in Hrun as (u1 & h1 & Hb & Hrun). eauto.
Qed.

(** [_Expr.resolve_expr_width] leaves a width of at least 1 in [self]. *)
Lemma base_resolve_expr_width_at_least_1 (self : node) (ops : list Expr) h u h' :
  Forall (fun o => exists i, local (self ++ [i]) o) ops ->
  base_resolve_expr_width self ops h = Ok (u, h') ->
  exists w, expr_eval_width h' !! self = Some w /\ 1 <= w.
Proof.
  intros Hops Hrun. unfold base_resolve_expr_width in Hrun.
  apply bind_Ok in Hrun as (? & h1 & ->%set_expr_eval_width_Ok & Hrun).
  apply bind_Ok in Hrun as (? & h2 & Hloop1 & Hloop2).
  set (I := fun h : heap => exists w, expr_eval_width h !! self = Some w /\ 1 <= w).
  assert (I h2) as Hh2.
  { eapply (for_each_invariant I); [| |exact Hloop1];
      [|exists 1; split; [apply lookup_insert_eq|lia]].
    eapply Forall_impl; [exact Hops|]. intros o [i Ho] g ? g' (w & Hw & Hge) Hbody.
    simpl in Hbody.
    apply bind_Ok in Hbody as (w' & g1 & Hmin & Hbody).
    apply bind_Ok in Hbody as (cur & ? & [Hcur ->]%eval_width_Ok & ->%set_expr_eval_width_Ok).
    destruct (child_keeps_parent _ self i _ _ _
                (local_get_min_eval_width _ _ Ho) Hmin) as [E _].
    exists (Z.max cur w'). split; [apply lookup_insert_eq|].
    assert (cur = w) by congruence. lia. }
  eapply (for_each_invariant I); [| |exact Hloop2]; [|exact Hh2].
  eapply Forall_impl; [exact Hops|]. intros o [i Ho] g ? g' (w & Hw & Hge) Hbody.
  simpl in Hbody.
  apply bind_Ok in Hbody as (cur & ? & [Hcur ->]%eval_width_Ok & Hprop).
  destruct (child_keeps_parent _ self i _ _ _
              (local_propagate_eval_width _ _ Ho _) Hprop) as [E _].
  exists w. split; [congruence|exact Hge].
Qed.

(** [resolve_expr_width] of every class that inherits it from [_Expr], and
    of the ternary, leaves a width of at least 1 in the node. *)
Lemma resolve_expr_width_at_least_1 (e : expr) (self : node) h u h' :
  resolves_from_one e = true ->
  resolve_expr_width (obj e self) h = Ok (u, h') ->
  exists w, expr_eval_width h' !! self = Some w /\ 1 <= w.
Proof.
  intros Hkind Hrun.
  destruct e; try discriminate Hkind; simpl in Hrun;
    try (eapply base_resolve_expr_width_at_least_1; [|exact Hrun];
         repeat (apply Forall_cons_2; [eexists; apply obj_local|]);
         apply Forall_nil_2).
  apply bind_Ok in Hrun as (wj & h1 & Hj & Hrun).
  apply bind_Ok in Hrun as (wk & h2 & Hk & Hrun).
  apply bind_Ok in Hrun as (? & h3 & ->%set_expr_eval_width_Ok & Hrun).
  apply bind_Ok in Hrun as (? & h4 & Hp1 & Hrun).
  apply bind_Ok in Hrun as (cur & ? & [_ ->]%eval_width_Ok & Hp2).
  destruct (child_keeps_parent _ self 1%nat _ _ _
              (local_propagate_eval_width _ _ (obj_local _ _) _) Hp1) as [E1 _].
  destruct (child_keeps_parent _ self 2%nat _ _ _
              (local_propagate_eval_width _ _ (obj_local _ _) _) Hp2) as [E2 _].
  exists (Z.max 1 (Z.max wj wk)). split; [|lia].
  rewrite E2, E1. simpl. apply lookup_insert_eq.
Qed.

(** The parity reductions return when the operand value fits in [k] bits
    and the fuel covers [k] iterations. *)
Lemma parity_reduce_bounded c n self h x h' (k : nat) :
  get_op1 (obj n (self ++ [0%nat])) h = Ok (x, h') ->
  0 <= x < 2 ^ Z.of_nat k -> (k <= fuel)%nat ->
  exists r,
    get_value (obj (ReductionExpr XorReduce c n) self) h = Ok (VInt r, h')
    /\ get_value (obj (ReductionExpr XnorReduce c n) self) h
       = Ok (VInt (Z.lxor r 1), h').
Proof.
  intros Hx Hrange Hfuel.
  destruct (parity_loop_bounded k x 0 0%nat fuel Hrange Hfuel)
    as (r & j & Hloop & _).
  exists r.
  assert (get_value (obj (ReductionExpr XorReduce c n) self) h = Ok (VInt r, h'))
    as Hxor.
  { simpl. rewrite (bind_eq _ _ _ _ _ Hx).
    unfold mbind, M_bind, bind, lift. now rewrite Hloop. }
  split; [exact Hxor|]. now apply XnorReduce_complements_XorReduce.
Qed.

(** *** Type prediction reads, and never writes *)

Lemma require_numeric_pure (o : Expr) msg c h u h' :
  (forall g t g', predict_type o g = Ok (t, g') -> g' = g) ->
  require_numeric o msg c h = Ok (u, h') -> h' = h.
Proof.
  intros Ho Hrun. unfold require_numeric in Hrun.
  apply bind_Ok in Hrun as (t & h1 & ->%Ho & Hrun).
  destruct (numeric_like t); [now apply ret_Ok in Hrun|discriminate Hrun].
Qed.

Lemma predict_type_pure (e : expr) :
  forall self h t h', predict_type (obj e self) h = Ok (t, h') -> h' = h.
Proof.
  induction e as [e IH] using expr_op_ind. intros self h t h' Hrun.
  destruct e as [| | | | | | | | | | ? ? [we|] ?| |]; simpl in IH, Hrun;
    repeat match goal with
           | H : Forall _ (_ :: _) |- _ =>
               let H1 := fresh "Hop" in
               apply Forall_cons in H as [H1 H]
           end;
    repeat match goal with
           | H : (_ ≫= _) _ = Ok _ |- _ =>
               apply bind_Ok in H as (? & ? & ? & H)
           | H : require_numeric _ _ _ _ = Ok _ |- _ =>
               apply require_numeric_pure in H; [subst|solve [eauto]]
           | H : predict_type (obj _ _) _ = Ok _ |- _ =>
               first [apply Hop in H | apply Hop0 in H | apply Hop1 in H];
               subst
           | H : get_cast_width _ _ = Ok _ |- _ =>
               apply get_cast_width_Ok in H as [-> ->]
           | H : ret _ _ = Ok _ |- _ => apply ret_Ok in H as [-> ->]
           | H : raise _ _ = Ok _ |- _ => discriminate H
           | H : (if ?b then _ else _) _ = Ok _ |- _ => destruct b
           | H : match ?cw with Some _ => _ | None => _ end _ = Ok _ |- _ =>
               destruct cw
           end;
    try reflexivity.
Qed.

(** On a cast whose width expression has not been evaluated yet,
    [get_min_eval_width] stores the cast width and changes nothing else
    outside the width operand. *)
Lemma get_min_eval_width_resolves_cast c v we wi self h w h' :
  cast_width h !! self = None ->
  get_min_eval_width (obj (WidthCast c v (Some we) wi) self) h = Ok (w, h') ->
  cast_width h' !! self = Some w
  /\ expr_eval_width h' !! self = expr_eval_width h !! self
  /\ forall q, q <> self -> ¬ (self ++ [1%nat]) `prefix_of` q ->
       expr_eval_width h' !! q = expr_eval_width h !! q
       /\ cast_width h' !! q = cast_width h !! q.
Proof.
  intros Hnone Hrun. simpl in Hrun.
  apply bind_Ok in Hrun as ([] & h1 & Hrcw & Hrun).
  apply bind_Ok in Hrcw as (cw & ? & [-> ->]%get_cast_width_Ok & Hrcw).
  rewrite Hnone in Hrcw.
  apply bind_Ok in Hrcw as (o & ? & [-> ->]%ret_Ok & Hrcw).
  apply bind_Ok in Hrcw as ([] & h2 & Hres & Hrcw).
  apply bind_Ok in Hrcw as (x & h3 & Hval & Hrcw).
  apply bind_Ok in Hrcw as (w' & ? & [Hw' ->]%lift_Ok & ->%set_cast_width_Ok).
  apply bind_Ok in Hrun as (cw & ? & [-> ->]%get_cast_width_Ok & Hrun).
  simpl in Hrun. rewrite lookup_insert_eq in Hrun.
  apply ret_Ok in Hrun as [-> ->]. simpl.
  pose proof (local_resolve_expr_width _ _ (obj_local we (self ++ [1%nat]))
                _ _ _ Hres) as F1.
  pose proof (local_get_value _ _ (obj_local we (self ++ [1%nat]))
                _ _ _ Hval) as F2.
  pose proof (unchanged_outside_trans _ _ _ _ F1 F2) as F.
  split; [apply lookup_insert_eq|]. split.
  - apply F, prefix_snoc_not.
  - intros q Hq Hout. rewrite lookup_insert_ne by congruence. now apply F.
Qed.

(** ** The claims *)

(** C1 (the code departs from the claim).  The claim: after [predict_type],
    one [resolve_expr_width] at the root and then [get_value], every integer
    arithmetic node has a width by the time its value is truncated, for all
    tree shapes.  The code: [resolve_expr_width] of a shift/exponent node
    never resolves the right operand, that of a ternary node never resolves
    the condition, and that of a logical-boolean node does nothing; a
    compound operand there keeps [expr_eval_width = None] and [trunc] raises
    [TypeError].  This happens with such a node as the root and also below
    an assignment-cast root, where the condition of a ternary is a
    logical-boolean node. *)
Theorem root_resolve_leaves_operand_unresolved :
  crashes_unresolved shift_root [1%nat]
  /\ crashes_unresolved ternary_root [0%nat]
  /\ crashes_unresolved bool_root [0%nat]
  /\ crashes_unresolved assigned_ternary [0%nat; 0%nat; 0%nat].
Proof.
  repeat split; unfold crashes_unresolved;
    eexists; eexists; (split; [vm_compute; reflexivity|]);
    (split; [vm_compute; reflexivity|]);
    (split; vm_compute; reflexivity).
Qed.

(** C2.  Take a relational, reduction, logical-boolean or cast node [N] at
    the position [self], and two runs: one where the enclosing context
    calls [propagate_eval_width(w1)] on [N] from the heap [h1], one where
    it calls [propagate_eval_width(w2)] from the heap [h2].  The heaps hold
    the same attributes in the subtree of [N] and may differ anywhere
    else, in particular in the widths of the enclosing nodes.  Then the
    two calls end alike: the same exception, or both return and every node
    of the subtree of [N], [N] included, holds the same [expr_eval_width]
    (and [cast_width]) in both runs; and a following [get_value] on [N]
    returns the same value in both.  Neither the argument nor any attribute
    of an enclosing node reaches [N]. *)
Theorem propagate_eval_width_ignores_context
    (e : expr) (self : node) (w1 w2 : Z) (h1 h2 : heap) :
  starts_new_context e = true ->
  agree_inside self h1 h2 ->
  same_result self
    (propagate_eval_width (obj e self) w1 h1)
    (propagate_eval_width (obj e self) w2 h2)
  /\ same_result self
       ((propagate_eval_width (obj e self) w1;; get_value (obj e self)) h1)
       ((propagate_eval_width (obj e self) w2;; get_value (obj e self)) h2).
Proof.
  intros Hkind Hagree.
  assert (propagate_eval_width (obj e self) w2
          = propagate_eval_width (obj e self) w1) as ->
    by (destruct e; try discriminate Hkind; reflexivity).
  destruct (obj_isolated e self) as [_ _ _ Hp Hv]. split.
  - now apply Hp.
  - apply (determined_bind self _ (fun _ => get_value (obj e self)));
      [apply Hp|intros _; exact Hv|exact Hagree].
Qed.

(** C3.  A width cast built with the integer cast width [w] (no width
    expression, so [cast_width] holds [w]), once resolved, evaluates to the value of its operand
    modulo [2^w]; on the way [expr_eval_width] is overwritten with the cast
    width.  In particular [WidthCast(IntLiteral(300, width=64), w_int=8)]
    evaluates to 44. *)
Theorem WidthCast_truncates_to_cast_width
    (c : ctx) (v : expr) (w : Z) (self : node) (h h1 h2 : heap)
    (x : value) (n : Z) :
  0 <= w ->
  cast_width h !! self = Some w ->
  resolve_expr_width (obj (WidthCast c v None w) self) h = Ok (tt, h1) ->
  get_value (obj v (self ++ [0%nat])) h1 = Ok (x, h2) ->
  to_int x = Ok n ->
  get_value (obj (WidthCast c v None w) self) h1
  = Ok (VInt (n mod 2 ^ w),
        Heap (<[self := w]> (expr_eval_width h2)) (cast_width h2))
  /\ elaborate cast_example = Ok (Tint, VInt 44).
Proof.
  intros Hw Hcw Hres Hx Hn. split.
  - eapply WidthCast_get_value; eauto using WidthCast_resolve_keeps_cast_width.
  - vm_compute. reflexivity.
Qed.

(** C4 (the code departs from the claim).  The claim: [NandReduce] is the
    boolean inversion of [AndReduce].  The code: [NandReduce.get_value] is
    the same computation as [OrReduce.get_value]; on the all-ones operand
    [4'b1111] both [AndReduce] and [NandReduce] return 1. *)
Theorem NandReduce_is_OrReduce :
  (forall c n self h,
     get_value (obj (ReductionExpr NandReduce c n) self) h
     = get_value (obj (ReductionExpr OrReduce c n) self) h)
  /\ elaborate and_ones = Ok (Tint, VInt 1)
  /\ elaborate nand_ones = Ok (Tint, VInt 1).
Proof.
  split; [reflexivity|]. split; vm_compute; reflexivity.
Qed.

(** C5, amended.  With operand values [a] and [b], [b] nonzero, and a
    resolved width [w], [Div.get_value] returns the floor quotient of [a]
    by [b] (rounded toward minus infinity) modulo [2^w], and
    [Mod.get_value] the matching remainder, which has the sign of [b],
    modulo [2^w].  Quotient and remainder are the truncating ones when [a]
    is not negative and [b] is positive. *)
Theorem Div_Mod_floor
    (c : ctx) (l r : expr) (self : node) (h h1 h2 : heap)
    (x y : value) (a b w : Z) :
  get_value (obj l (self ++ [0%nat])) h = Ok (x, h1) -> to_int x = Ok a ->
  get_value (obj r (self ++ [1%nat])) h1 = Ok (y, h2) -> to_int y = Ok b ->
  b <> 0 ->
  expr_eval_width h !! self = Some w -> 0 <= w ->
  get_value (obj (BinaryIntExpr Div c l r) self) h
    = Ok (VInt ((a / b) mod 2 ^ w), h2)
  /\ get_value (obj (BinaryIntExpr Mod c l r) self) h
    = Ok (VInt ((a mod b) mod 2 ^ w), h2)
  /\ a = b * (a / b) + (a mod b)
  /\ (0 < b -> 0 <= (a mod b) < b)
  /\ (b < 0 -> b < (a mod b) <= 0)
  /\ (0 <= a -> 0 < b -> a / b = a ÷ b /\ a mod b = Z.rem a b).
Proof.
  intros Hx Ha Hy Hb Hnz Hw Hpos.
  assert ((b =? 0) = false) as Hb0 by now apply Z.eqb_neq.
  split; [|split; [|split; [|split; [|split]]]].
  - eapply BinaryIntExpr_get_value; eauto.
    simpl. unfold Py.floordiv. now rewrite Hb0.
  - eapply BinaryIntExpr_get_value; eauto.
    simpl. unfold Py.modulo. now rewrite Hb0.
  - now apply Z.div_mod.
  - intros. now apply Z.mod_pos_bound.
  - intros. now apply Z.mod_neg_bound.
  - intros Ha0 Hb1. split.
    + symmetry. now apply Z.quot_div_nonneg.
    + symmetry. now apply Z.rem_mod_nonneg.
Qed.

(** C6 (the code departs from the claim).  The claim: the parity
    reductions terminate on every operand value, within [width]
    iterations.  The code scans the operand value as it is: on the
    negative literal [-1] neither [XorReduce] nor [XnorReduce] returns,
    whatever the fuel; on the literal [0b111111] declared with width 4 the
    resolved width is 4 and the loop runs 6 iterations. *)
Theorem parity_scan_not_bounded_by_width :
  elaborate xor_negative = OutOfFuel
  /\ elaborate xnor_negative = OutOfFuel
  /\ exists h1,
       resolve_expr_width (obj xor_wide []) (fresh xor_wide) = Ok (tt, h1)
       /\ expr_eval_width h1 !! [] = Some 4
       /\ get_op1 (obj (lit 63 4) [0%nat]) h1 = Ok (63, h1)
       /\ forall f, (6 <= f)%nat -> parity_loop f 63 0 0 = Ok (0, 6%nat).
Proof.
  assert (forall e, e = xor_negative \/ e = xnor_negative ->
            elaborate e = OutOfFuel) as Hneg.
  { intros e He. unfold elaborate, evaluate. cbv zeta.
    assert (predict_type (obj e []) (fresh e) = Ok (Tint, fresh e)) as Hp
      by (destruct He as [-> | ->]; vm_compute; reflexivity).
    rewrite (bind_eq _ _ _ _ _ Hp).
    assert (exists h1,
              resolve_expr_width (obj e []) (fresh e) = Ok (tt, h1)
              /\ get_op1 (obj (lit (-1) 64) [0%nat]) h1 = Ok (-1, h1))
      as (h1 & Hr & Hop).
    { destruct He as [-> | ->]; eexists; split; vm_compute; reflexivity. }
    rewrite (bind_eq _ _ _ _ _ Hr).
    destruct (parity_reduce_negative 0%nat (lit (-1) 64) [] h1 (-1) h1 Hop)
      as [Hxor Hxnor]; [lia|].
    unfold mbind, M_bind, bind.
    destruct He as [-> | ->]; unfold xor_negative, xnor_negative;
      [now rewrite Hxor | now rewrite Hxnor]. }
  split; [apply Hneg; now left|]. split; [apply Hneg; now right|].
  eexists. split; [vm_compute; reflexivity|].
  split; [vm_compute; reflexivity|]. split; [vm_compute; reflexivity|].
  intros f Hf. do 6 (destruct f as [|f]; [lia|]). now destruct f.
Qed.

(** C7 (the code departs from the claim).  The claim: a ternary whose two
    branches are both numeric-like (numeric, boolean or single-bit) has the
    numeric result type.  The code tests the branches against
    [[int, bool]] only: with a single-bit branch and an integer branch it
    raises the branch-incompatibility error, and with two single-bit
    branches it returns the single-bit type. *)
Theorem TernaryExpr_rejects_Bit_branch :
  value_of (predict_type (obj bit_branch [1%nat]) (fresh ternary_bit)) = Ok TBit
  /\ value_of (predict_type (obj (lit 0 64) [2%nat]) (fresh ternary_bit)) = Ok Tint
  /\ numeric_like TBit = true
  /\ numeric_like Tint = true
  /\ value_of (predict_type (obj ternary_bit []) (fresh ternary_bit))
     = Raise (RDLCompileError
         "True/False results of ternary conditional are not compatible types"
         0%nat)
  /\ value_of (predict_type (obj ternary_bit_bit []) (fresh ternary_bit_bit))
     = Ok TBit.
Proof. repeat split; vm_compute; reflexivity. Qed.

(** C8 (the code departs from the claim).  The claim: every operation that
    sets a width leaves it at least 1.  The code: [resolve_expr_width] of a
    shift whose left operand has minimum width 0 sets the width 0, and so
    do [resolve_expr_width] and [get_value] of a width cast built with cast
    width 0 over such an operand. *)
Theorem resolved_width_can_be_zero :
  (exists h1,
     resolve_expr_width (obj shift_zero []) (fresh shift_zero) = Ok (tt, h1)
     /\ expr_eval_width h1 !! [] = Some 0)
  /\ (exists h1 v h2,
        resolve_expr_width (obj cast_zero []) (fresh cast_zero) = Ok (tt, h1)
        /\ expr_eval_width h1 !! [] = Some 0
        /\ get_value (obj cast_zero []) h1 = Ok (v, h2)
        /\ expr_eval_width h2 !! [] = Some 0).
Proof.
  split.
  - eexists. split; vm_compute; reflexivity.
  - eexists. eexists. eexists.
    split; [vm_compute; reflexivity|]. split; [vm_compute; reflexivity|].
    split; vm_compute; reflexivity.
Qed.

(** C9, amended.  [get_min_eval_width] returns and leaves the whole heap
    as it was whenever every width cast it reaches already has its cast
    width (it was built with an integer width, or its width expression has
    been evaluated before). *)
Theorem get_min_eval_width_pure (e : expr) :
  forall (self : node) (h : heap),
    cast_widths_known e self h = true ->
    exists w, get_min_eval_width (obj e self) h = Ok (w, h).
Proof.
  induction e as [e IH] using expr_op_ind. intros self h Hk.
  destruct e as [| | | | | | | | | | ? ? [we|] ?| |]; simpl in IH, Hk |- *;
    repeat match goal with
           | H : Forall _ (_ :: _) |- _ =>
               let H1 := fresh "Hop" in
               apply Forall_cons in H as [H1 H]
           | H : _ && _ = true |- _ => apply andb_true_iff in H as [? ?]
           end;
    try (eexists; reflexivity).
  - destruct (Hop _ _ H) as [a Ha], (Hop0 _ _ H0) as [b Hb].
    exists (Z.max a b).
    rewrite (bind_eq _ _ _ _ _ Ha). now rewrite (bind_eq _ _ _ _ _ Hb).
  - now apply Hop.
  - now apply Hop.
  - destruct (Hop0 _ _ H) as [a Ha], (Hop1 _ _ H0) as [b Hb].
    exists (Z.max a b).
    rewrite (bind_eq _ _ _ _ _ Ha). now rewrite (bind_eq _ _ _ _ _ Hb).
  - apply bool_decide_eq_true in Hk as [w Hw]. exists w.
    unfold mbind, M_bind, bind, get_cast_width. rewrite Hw. simpl.
    now rewrite Hw.
  - apply bool_decide_eq_true in Hk as [w Hw]. exists w.
    unfold mbind, M_bind, bind, get_cast_width. rewrite Hw. simpl.
    now rewrite Hw.
  - now apply Hop.
Qed.

(** C10.  [BoolNot.get_value] negates the truth value of the operand node
    object, not the operand's value: it returns [False] for every operand
    and leaves the heap alone (the operand is not evaluated).  For the
    operand [0], whose value is false, it returns [False] too. *)
Theorem BoolNot_negates_the_node_object :
  (forall (c : ctx) (n : expr) (self : node) (h : heap),
     get_value (obj (ReductionExpr BoolNot c n) self) h
     = Ok (VBool (negb (object_truth (obj n (self ++ [0%nat])))), h)
     /\ get_value (obj (ReductionExpr BoolNot c n) self) h
        = Ok (VBool false, h))
  /\ (forall h, get_value (obj (lit 0 64) [0%nat]) h = Ok (VInt 0, h))
  /\ Py.to_bool (VInt 0) = false
  /\ elaborate not_zero = Ok (Tint, VBool false).
Proof.
  split; [intros; split; reflexivity|].
  split; [reflexivity|]. split; [reflexivity|]. vm_compute. reflexivity.
Qed.


(** ** Further properties *)

(** Decompose hypotheses stating that a computation returned. *)
Ltac inv_run :=
  repeat match goal with
    | H : (_ ≫= _) _ = Ok _ |- _ => apply bind_Ok in H as (? & ? & ? & H)
    | H : (_ <$> _) _ = Ok _ |- _ => apply fmap_Ok in H as (? & H & ?)
    | H : ret _ _ = Ok _ |- _ => apply ret_Ok in H as [? ?]
    | H : lift _ _ = Ok _ |- _ => apply lift_Ok in H as [? ?]
    | H : get_cast_width _ _ = Ok _ |- _ =>
        apply get_cast_width_Ok in H as [? ?]
    | H : set_expr_eval_width _ _ _ = Ok _ |- _ =>
        apply set_expr_eval_width_Ok in H
    | H : set_cast_width _ _ _ = Ok _ |- _ => apply set_cast_width_Ok in H
    | H : eval_width _ _ = Ok _ |- _ => apply eval_width_Ok in H as [? ?]
    | H : raise _ _ = Ok _ |- _ => discriminate H
    end; subst.


Lemma trunc_inv (self : node) (x z : Z) h h' :
  trunc self x h = Ok (z, h') ->
  h' = h /\ exists w,
    expr_eval_width h !! self = Some w /\ 0 <= w /\ z = x mod 2 ^ w.
Proof.
  unfold trunc, get_expr_eval_width, mbind, M_bind, bind.
  destruct (expr_eval_width h !! self) as [w|]; [|discriminate].
  unfold Py.lshift. destruct (Z.ltb_spec w 0) as [|Hw]; [discriminate|].
  simpl. intros [= <- <-]. split; [reflexivity|].
  exists w. now rewrite land_mask.
Qed.

(** X1.  With a resolved width [w], not negative, [trunc] returns the value
    modulo [2^w], which lies in [[0, 2^w)], leaves the heap alone, and
    truncating again changes nothing. *)
Theorem trunc_range_idempotent (self : node) (v w : Z) (h : heap) :
  expr_eval_width h !! self = Some w -> 0 <= w ->
  exists z,
    trunc self v h = Ok (z, h)
    /\ z = v mod 2 ^ w
    /\ 0 <= z < 2 ^ w
    /\ trunc self z h = Ok (z, h).
Proof.
  intros Hw Hpos. exists (v mod 2 ^ w).
  assert (0 < 2 ^ w) as Hpow by now apply Z.pow_pos_nonneg.
  split; [now apply trunc_Ok|]. split; [reflexivity|].
  split; [now apply Z.mod_pos_bound|].
  rewrite (trunc_Ok self _ w h Hw Hpos). now rewrite Z.mod_mod by lia.
Qed.

(** X2.  A binary integer operator whose operands evaluate and whose
    arithmetic succeeds raises [TypeError] when its own width is still
    [None], and [ValueError] when its width is negative. *)
Theorem binary_needs_resolved_width
    (cls : binop) (c : ctx) (l r : expr) (self : node) (h h1 h2 : heap)
    (x y : value) (a b z : Z) :
  get_value (obj l (self ++ [0%nat])) h = Ok (x, h1) -> to_int x = Ok a ->
  get_value (obj r (self ++ [1%nat])) h1 = Ok (y, h2) -> to_int y = Ok b ->
  binary cls a b = Ok z ->
  (expr_eval_width h !! self = None ->
   get_value (obj (BinaryIntExpr cls c l r) self) h = Raise TypeError)
  /\ (forall w, expr_eval_width h !! self = Some w -> w < 0 ->
      get_value (obj (BinaryIntExpr cls c l r) self) h = Raise ValueError).
Proof.
  intros Hx Ha Hy Hb Hz.
  destruct (child_keeps_parent _ self 0%nat _ _ _
              (local_get_value _ _ (obj_local l _)) Hx) as [E1 _].
  destruct (child_keeps_parent _ self 1%nat _ _ _
              (local_get_value _ _ (obj_local r _)) Hy) as [E2 _].
  split; [intros Hw|intros w Hw Hneg]; simpl;
    rewrite (bind_eq _ _ _ _ _ (get_ops2_Ok _ _ _ _ _ _ _ _ _ Hx Ha Hy Hb));
    simpl; rewrite Hz;
    unfold mbind, M_bind, bind, lift, fmap, M_fmap, bind, trunc,
      get_expr_eval_width, mbind, M_bind, bind;
    rewrite E2, E1, Hw; [reflexivity|].
  unfold Py.lshift. destruct (Z.ltb_spec w 0); [reflexivity|lia].
Qed.

(** X3.  [Div] and [Mod] raise [ZeroDivisionError] when the right operand
    evaluates to zero, whatever the width of the node, resolved or not. *)
Theorem Div_Mod_by_zero
    (c : ctx) (l r : expr) (self : node) (h h1 h2 : heap)
    (x y : value) (a : Z) :
  get_value (obj l (self ++ [0%nat])) h = Ok (x, h1) -> to_int x = Ok a ->
  get_value (obj r (self ++ [1%nat])) h1 = Ok (y, h2) -> to_int y = Ok 0 ->
  get_value (obj (BinaryIntExpr Div c l r) self) h = Raise ZeroDivisionError
  /\ get_value (obj (BinaryIntExpr Mod c l r) self) h = Raise ZeroDivisionError.
Proof.
  intros Hx Ha Hy Hb. split; simpl;
    rewrite (bind_eq _ _ _ _ _ (get_ops2_Ok _ _ _ _ _ _ _ _ _ Hx Ha Hy Hb));
    reflexivity.
Qed.

(** X4.  A shift by a negative amount raises [ValueError], left or right,
    whatever the width of the node. *)
Theorem shift_by_negative
    (c : ctx) (l r : expr) (self : node) (h h1 h2 : heap)
    (x y : value) (a b : Z) :
  get_value (obj l (self ++ [0%nat])) h = Ok (x, h1) -> to_int x = Ok a ->
  get_value (obj r (self ++ [1%nat])) h1 = Ok (y, h2) -> to_int y = Ok b ->
  b < 0 ->
  get_value (obj (ExpShiftExpr LShift c l r) self) h = Raise ValueError
  /\ get_value (obj (ExpShiftExpr RShift c l r) self) h = Raise ValueError.
Proof.
  intros Hx Ha Hy Hb Hneg. split; simpl;
    rewrite (bind_eq _ _ _ _ _ (get_ops2_Ok _ _ _ _ _ _ _ _ _ Hx Ha Hy Hb));
    simpl; unfold Py.lshift, Py.rshift;
    (destruct (Z.ltb_spec b 0); [reflexivity|lia]).
Qed.

(** X5.  Whenever [get_value] of a binary, unary, shift/exponent or
    width-cast node returns, the result is an integer [z] with
    [0 <= z < 2^w], [w] being the width the node then holds. *)
Theorem truncated_value_fits_width
    (e : expr) (self : node) (h h' : heap) (v : value) :
  truncates e = true ->
  get_value (obj e self) h = Ok (v, h') ->
  exists z w,
    v = VInt z /\ expr_eval_width h' !! self = Some w
    /\ 0 <= w /\ 0 <= z < 2 ^ w.
Proof.
  intros Hkind Hrun.
  destruct e; try discriminate Hkind; simpl in Hrun; inv_run;
    match goal with
    | H : trunc _ _ _ = Ok _ |- _ =>
        apply trunc_inv in H as (-> & w & Hw & Hpos & ->)
    end;
    eexists; exists w;
    (split; [reflexivity|]); (split; [exact Hw|]); (split; [exact Hpos|]);
    apply Z.mod_pos_bound; now apply Z.pow_pos_nonneg.
Qed.

(** X6.  Locality.  When a method of the node at [self] returns, the
    attributes of every node outside the subtree at [self] are what they
    were. *)
Theorem methods_touch_only_their_subtree
    (e : expr) (self q : node) (h : heap) :
  ¬ self `prefix_of` q ->
  (forall t h', predict_type (obj e self) h = Ok (t, h') -> same_at q h h')
  /\ (forall u h',
        resolve_expr_width (obj e self) h = Ok (u, h') -> same_at q h h')
  /\ (forall w h',
        get_min_eval_width (obj e self) h = Ok (w, h') -> same_at q h h')
  /\ (forall w u h',
        propagate_eval_width (obj e self) w h = Ok (u, h') -> same_at q h h')
  /\ (forall v h', get_value (obj e self) h = Ok (v, h') -> same_at q h h').
Proof.
  intros Hq. destruct (obj_local e self) as [H1 H2 H3 H4 H5].
  split; [intros ? ? Hr; exact (H1 _ _ _ Hr q Hq)|].
  split; [intros ? ? Hr; exact (H2 _ _ _ Hr q Hq)|].
  split; [intros ? ? Hr; exact (H3 _ _ _ Hr q Hq)|].
  split; [intros ? ? ? Hr; exact (H4 _ _ _ _ Hr q Hq)|].
  intros ? ? Hr; exact (H5 _ _ _ Hr q Hq).
Qed.

(** X7.  [predict_type] never writes: when it returns, the heap is the one
    it was called in. *)
Theorem predict_type_leaves_heap
    (e : expr) (self : node) (h h' : heap) (t : ty) :
  predict_type (obj e self) h = Ok (t, h') -> h' = h.
Proof. apply predict_type_pure. Qed.

Lemma require_numeric_Ok (o : Expr) msg c h u h' :
  require_numeric o msg c h = Ok (u, h') ->
  exists t, predict_type o h = Ok (t, h') /\ numeric_like t = true.
Proof.
  unfold require_numeric. intros (t & h1 & Hp & Hrun)%bind_Ok.
  destruct (numeric_like t) eqn:Hn; [|discriminate Hrun].
  apply ret_Ok in Hrun as [_ ->]. eauto.
Qed.


Lemma has_type_numeric (v : value) (t t' : ty) :
  numeric_like t = true -> numeric_like t' = true ->
  has_type v t = true -> has_type v t' = true.
Proof.
  destruct t, t', v; intros H1 H2 H3; vm_compute in H1, H2, H3 |- *;
    congruence.
Qed.

(** X8.  Type prediction is sound for evaluation: when [predict_type]
    returns [t] and [get_value] returns [v] (in any heaps), [v] is an
    integer or a boolean if [t] is numeric-like, a string if [t] is the
    string type, and a member of the enumeration [t] otherwise. *)
Theorem predicted_type_is_sound (e : expr) :
  forall (self : node) (h h0 g g' : heap) (t : ty) (v : value),
    predict_type (obj e self) h = Ok (t, h0) ->
    get_value (obj e self) g = Ok (v, g') ->
    has_type v t = true.
Proof.
  induction e as [e IH] using expr_op_ind. intros self h h0 g g' t v Hp Hv.
  destruct e as [| | | | | | | | | | ? ? w_expr ?| |]; simpl in IH, Hp, Hv;
    repeat match goal with
           | H : Forall _ (_ :: _) |- _ =>
               let H1 := fresh "Hop" in
               apply Forall_cons in H as [H1 H]
           end.
  - inv_run. reflexivity.
  - inv_run. simpl. now apply bool_decide_eq_true.
  - inv_run. reflexivity.
  - inv_run. reflexivity.
  - inv_run. reflexivity.
  - inv_run. reflexivity.
  - apply bind_Ok in Hp as (? & ? & _ & Hp). inv_run.
    destruct cls; simpl in Hv; inv_run; reflexivity.
  - inv_run. reflexivity.
  - inv_run. reflexivity.
  - apply bind_Ok in Hp as (? & h1 & _ & Hp).
    apply bind_Ok in Hp as (t_j & h2 & Hj & Hp).
    apply bind_Ok in Hp as (t_k & h3 & Hk & Hp).
    apply bind_Ok in Hv as (xc & g1 & _ & Hv).
    apply bind_Ok in Hv as (j & g2 & Hvj & Hv).
    apply bind_Ok in Hv as (k & g3 & Hvk & Hv).
    apply ret_Ok in Hv as [-> ->].
    pose proof (Hop0 _ _ _ _ _ _ _ Hj Hvj) as Tj.
    pose proof (Hop1 _ _ _ _ _ _ _ Hk Hvk) as Tk.
    destruct (num_t t_j && num_t t_k) eqn:Hnum.
    + apply ret_Ok in Hp as [-> ->].
      apply andb_true_iff in Hnum as [Nj Nk].
      assert (forall u, num_t u = true -> numeric_like u = true) as Hnl.
      { intros u. unfold num_t, numeric_like. intros ->. reflexivity. }
      destruct (Py.to_bool xc);
        [apply (has_type_numeric _ t_j)|apply (has_type_numeric _ t_k)];
        auto.
    + destruct (bool_decide (t_j ≠ t_k)) eqn:Hne; [discriminate Hp|].
      apply ret_Ok in Hp as [-> ->].
      apply bool_decide_eq_false in Hne.
      assert (t_j = t_k) as Heq by (destruct (decide (t_j = t_k)); tauto).
      destruct (Py.to_bool xc); [exact Tj|now rewrite Heq].
  - inv_run. reflexivity.
  - inv_run. reflexivity.
  - apply bind_Ok in Hp as (op_type & h1 & Hop_t & Hp).
    apply bind_Ok in Hv as (xv & g1 & Hx & Hv).
    pose proof (Hop _ _ _ _ _ _ _ Hop_t Hx) as Tx.
    destruct (numeric_like dest_type) eqn:Hnd.
    + destruct (numeric_like op_type) eqn:Hno; [|discriminate Hp].
      apply ret_Ok in Hp as [-> ->].
      destruct (bool_decide (dest_type = Tbool)) eqn:Hb.
      * apply ret_Ok in Hv as [-> ->].
        apply bool_decide_eq_true in Hb as ->. reflexivity.
      * destruct (bool_decide (dest_type = TBit)) eqn:Hbit.
        -- inv_run. apply bool_decide_eq_true in Hbit as ->. reflexivity.
        -- apply ret_Ok in Hv as [-> ->].
           now apply (has_type_numeric _ op_type).
    + destruct (bool_decide (dest_type = TArray)).
      * destruct (bool_decide (op_type ≠ TArray)); discriminate Hp.
      * destruct (bool_decide (dest_type ≠ op_type)) eqn:Hne;
          [discriminate Hp|].
        apply ret_Ok in Hp as [-> ->].
        apply bool_decide_eq_false in Hne.
        assert (dest_type = op_type) as Heq
          by (destruct (decide (dest_type = op_type)); tauto).
        assert (bool_decide (dest_type = Tbool) = false) as Hb
          by (apply bool_decide_eq_false; intros ->; discriminate Hnd).
        assert (bool_decide (dest_type = TBit) = false) as Hbit
          by (apply bool_decide_eq_false; intros ->; discriminate Hnd).
        rewrite Hb, Hbit in Hv. apply ret_Ok in Hv as [-> ->].
        now rewrite Heq.
Qed.


(** X10.  Type prediction checks the whole tree: on a tree whose width
    expressions have not been evaluated yet (as after construction), when
    [predict_type] returns at the root it returns at every node of the
    tree, the operands whose type does not enter the result included. *)
Theorem predict_type_checks_every_node (e : expr) :
  forall (self : node) (h h' : heap) (t : ty),
    width_exprs_pending e self h = true ->
    predict_type (obj e self) h = Ok (t, h') ->
    forall p e', (p, e') ∈ subtrees e self ->
      exists t', predict_type (obj e' p) h = Ok (t', h).
Proof.
  induction e as [e IH] using expr_op_ind. intros self h h' t Hpend Hp p e' Hin.
  pose proof (predict_type_pure _ _ _ _ _ Hp) as ->.
  assert (forall x q t0 g,
            (forall self h h' t, width_exprs_pending x self h = true ->
               predict_type (obj x self) h = Ok (t, h') ->
               forall p e', (p, e') ∈ subtrees x self ->
                 exists t', predict_type (obj e' p) h = Ok (t', h)) ->
            width_exprs_pending x q h = true ->
            predict_type (obj x q) h = Ok (t0, g) ->
            (p, e') ∈ subtrees x q ->
            exists t', predict_type (obj e' p) h = Ok (t', h)) as Hchild.
  { intros x q t0 g IHx Hx Hpx Hinx. eapply IHx; eauto. }
  destruct e as [| | | | | | | | | | ? ? [we|] ?| |];
    simpl in IH, Hpend, Hp, Hin;
    repeat match goal with
           | H : Forall _ (_ :: _) |- _ =>
               let H1 := fresh "Hop" in
               apply Forall_cons in H as [H1 H]
           | H : _ && _ = true |- _ => apply andb_true_iff in H as [? ?]
           end;
    apply elem_of_cons in Hin as [[= -> ->]|Hin];
    try (eexists; simpl; exact Hp);
    repeat match goal with
           | H : _ ∈ _ ++ _ |- _ => apply elem_of_app in H as [H|H]
           | H : _ ∈ [] |- _ => now apply elem_of_nil in H
           end;
    repeat match goal with
           | H : (_ ≫= _) _ = Ok _ |- _ =>
               apply bind_Ok in H as (? & ? & ? & H)
           | H : require_numeric _ _ _ _ = Ok _ |- _ =>
               let E := fresh "E" in
               apply require_numeric_Ok in H as (? & H & _);
               pose proof (predict_type_pure _ _ _ _ _ H) as E;
               try rewrite E in *; clear E
           | H : get_cast_width _ _ = Ok _ |- _ =>
               apply get_cast_width_Ok in H as [-> ->]
           | H : ret _ _ = Ok _ |- _ => apply ret_Ok in H as [-> ->]
           | H : raise _ _ = Ok _ |- _ => discriminate H
           | H : bool_decide (_ = None) = true |- _ =>
               apply bool_decide_eq_true in H; rewrite H in *
           end;
    repeat match goal with
           | H : predict_type (obj ?x ?q) ?g = Ok (_, ?g') |- _ =>
               lazymatch g with
               | g' => fail
               | _ =>
                   let E := fresh "E" in
                   pose proof (predict_type_pure _ _ _ _ _ H) as E;
                   rewrite E in *; clear E
               end
           end;
    solve [eapply (Hchild _ _ _ _ Hop); eassumption
          |eapply (Hchild _ _ _ _ Hop0); eassumption
          |eapply (Hchild _ _ _ _ Hop1); eassumption].
Qed.

Lemma subtrees_prefix (e : expr) :
  forall self p e', (p, e') ∈ subtrees e self -> self `prefix_of` p.
Proof.
  induction e as [e IH] using expr_op_ind. intros self p e' Hin.
  destruct e as [| | | | | | | | | | ? ? [we|] ?| |]; simpl in IH, Hin;
    repeat match goal with
           | H : Forall _ (_ :: _) |- _ =>
               let H1 := fresh "Hop" in
               apply Forall_cons in H as [H1 H]
           end;
    apply elem_of_cons in Hin as [[= -> _]|Hin]; try reflexivity;
    repeat match goal with
           | H : _ ∈ _ ++ _ |- _ => apply elem_of_app in H as [H|H]
           | H : _ ∈ [] |- _ => now apply elem_of_nil in H
           end;
    solve [eapply prefix_app_l, Hop; eassumption
          |eapply prefix_app_l, Hop0; eassumption
          |eapply prefix_app_l, Hop1; eassumption].
Qed.

(** Two different operands own disjoint subtrees. *)
Lemma sibling_disjoint (self p : node) (i j : nat) :
  i <> j -> (self ++ [i]) `prefix_of` p -> ¬ (self ++ [j]) `prefix_of` p.
Proof.
  intros Hij [k ->] [k' Heq]. rewrite <- !app_assoc in Heq.
  apply app_inv_head in Heq. simpl in Heq. congruence.
Qed.

Lemma bind_set_expr_eval_width {B} p w (k : unit -> M B) h :
  (set_expr_eval_width p w ≫= k) h
  = k tt (Heap (assign p w (expr_eval_width h)) (cast_width h)).
Proof. reflexivity. Qed.

Lemma bind_eval_width {B} p c (k : Z -> M B) h :
  expr_eval_width h !! p = Some c -> (eval_width p ≫= k) h = k c h.
Proof.
  intros Hc. unfold eval_width, get_expr_eval_width, mbind, M_bind, bind.
  now rewrite Hc.
Qed.

(** [get_min_eval_width] of a context-determined tree is read off the
    literals and writes nothing. *)
Lemma get_min_eval_width_context (e : expr) :
  forall self h, context_determined e = true ->
    get_min_eval_width (obj e self) h = Ok (min_width e, h).
Proof.
  induction e as [e IH] using expr_op_ind. intros self h Hc.
  destruct e; try discriminate Hc; simpl in IH, Hc |- *;
    repeat match goal with
           | H : Forall _ (_ :: _) |- _ =>
               let H1 := fresh "Hop" in
               apply Forall_cons in H as [H1 H]
           | H : _ && _ = true |- _ => apply andb_true_iff in H as [? ?]
           end;
    try reflexivity.
  - rewrite (bind_eq _ _ _ _ _ (Hop _ _ H)).
    now rewrite (bind_eq _ _ _ _ _ (Hop0 _ _ H0)).
  - now apply Hop.
Qed.

(** [propagate_eval_width] on a context-determined tree returns and
    stores [w] in every node of the tree. *)
Lemma propagate_context (e : expr) :
  forall self w h, context_determined e = true ->
    exists h',
      propagate_eval_width (obj e self) w h = Ok (tt, h')
      /\ cast_width h' = cast_width h
      /\ forall p e', (p, e') ∈ subtrees e self ->
           expr_eval_width h' !! p = Some w.
Proof.
  induction e as [e IH] using expr_op_ind. intros self w h Hc.
  destruct e; try discriminate Hc; simpl in IH, Hc;
    repeat match goal with
           | H : Forall _ (_ :: _) |- _ =>
               let H1 := fresh "Hop" in
               apply Forall_cons in H as [H1 H]
           | H : _ && _ = true |- _ => apply andb_true_iff in H as [? ?]
           end.
  1-3: eexists; split; [reflexivity|]; split; [reflexivity|];
    intros p e' Hin; simpl in Hin;
    apply elem_of_cons in Hin as [[= -> _]|Hin];
    [apply lookup_insert_eq|now apply elem_of_nil in Hin].
  - (* binary *)
    simpl. unfold base_propagate_eval_width. cbn [for_each].
    rewrite bind_set_expr_eval_width. simpl assign.
    set (g0 := Heap _ _).
    destruct (Hop (self ++ [0%nat]) w g0 H) as (g1 & R1 & C1 & F1).
    destruct (Hop0 (self ++ [1%nat]) w g1 H0) as (g2 & R2 & C2 & F2).
    exists g2.
    rewrite (bind_eq _ _ _ _ _ R1). rewrite (bind_eq _ _ _ _ _ R2).
    split; [reflexivity|]. split; [now rewrite C2, C1|].
    intros p e' Hin. simpl in Hin.
    apply elem_of_cons in Hin as [[= -> _]|Hin].
    + destruct (child_keeps_parent _ self 0%nat _ _ _
                  (local_propagate_eval_width _ _ (obj_local _ _) _) R1) as [E1 _].
      destruct (child_keeps_parent _ self 1%nat _ _ _
                  (local_propagate_eval_width _ _ (obj_local _ _) _) R2) as [E2 _].
      rewrite E2, E1. apply lookup_insert_eq.
    + apply elem_of_app in Hin as [Hin|Hin]; [|exact (F2 _ _ Hin)].
      pose proof (subtrees_prefix _ _ _ _ Hin) as Hpre.
      destruct (local_propagate_eval_width _ _ (obj_local e2 (self ++ [1%nat]))
                  _ _ _ _ R2 p) as [E _].
      { apply (sibling_disjoint self p 0%nat 1%nat); [lia|exact Hpre]. }
      rewrite E. exact (F1 _ _ Hin).
  - (* unary *)
    simpl. unfold base_propagate_eval_width. cbn [for_each].
    rewrite bind_set_expr_eval_width. simpl assign.
    set (g0 := Heap _ _).
    destruct (Hop (self ++ [0%nat]) w g0 Hc) as (g1 & R1 & C1 & F1).
    exists g1. rewrite (bind_eq _ _ _ _ _ R1).
    split; [reflexivity|]. split; [now rewrite C1|].
    intros p e' Hin. simpl in Hin.
    apply elem_of_cons in Hin as [[= -> _]|Hin]; [|exact (F1 _ _ Hin)].
    destruct (child_keeps_parent _ self 0%nat _ _ _
                (local_propagate_eval_width _ _ (obj_local _ _) _) R1) as [E1 _].
    rewrite E1. apply lookup_insert_eq.
Qed.

Lemma bind_assoc {A B C} (m : M A) (k1 : A -> M B) (k2 : B -> M C) h :
  ((m ≫= k1) ≫= k2) h = (m ≫= fun a => k1 a ≫= k2) h.
Proof.
  unfold mbind, M_bind, bind. now destruct (m h) as [[a h1]| |].
Qed.

Lemma bind_ret {A B} (a : A) (k : A -> M B) h : (ret a ≫= k) h = k a h.
Proof. reflexivity. Qed.

(** [_Expr.resolve_expr_width] over two context-determined operands. *)
Lemma base_resolve_context_2 (l r : expr) (self : node) (h : heap) :
  context_determined l = true -> context_determined r = true ->
  exists h',
    base_resolve_expr_width self
      [obj l (self ++ [0%nat]); obj r (self ++ [1%nat])] h = Ok (tt, h')
    /\ cast_width h' = cast_width h
    /\ expr_eval_width h' !! self
       = Some (Z.max (min_width l) (Z.max (min_width r) 1))
    /\ forall p e',
         (p, e') ∈ subtrees l (self ++ [0%nat]) ++ subtrees r (self ++ [1%nat]) ->
         expr_eval_width h' !! p
         = Some (Z.max (min_width l) (Z.max (min_width r) 1)).
Proof.
  intros Hl Hr.
  assert (Z.max (min_width l) (Z.max (min_width r) 1)
          = Z.max (Z.max 1 (min_width l)) (min_width r)) as -> by lia.
  set (W := Z.max (Z.max 1 (min_width l)) (min_width r)).
  unfold base_resolve_expr_width. cbn [for_each].
  rewrite ?bind_assoc, bind_set_expr_eval_width. simpl assign.
  rewrite ?bind_assoc, (bind_eq _ _ _ _ _ (get_min_eval_width_context l _ _ Hl)).
  rewrite ?bind_assoc, (bind_eval_width self 1) by apply lookup_insert_eq.
  rewrite ?bind_assoc, bind_set_expr_eval_width. simpl assign.
  rewrite ?bind_assoc, (bind_eq _ _ _ _ _ (get_min_eval_width_context r _ _ Hr)).
  rewrite ?bind_assoc, (bind_eval_width self (Z.max 1 (min_width l)))
    by apply lookup_insert_eq.
  rewrite ?bind_assoc, bind_set_expr_eval_width. simpl assign. fold W.
  rewrite ?bind_assoc, bind_ret.
  set (g0 := Heap _ _).
  assert (expr_eval_width g0 !! self = Some W) as Hg0
    by apply lookup_insert_eq.
  rewrite ?bind_assoc, (bind_eval_width self W) by exact Hg0.
  destruct (propagate_context l (self ++ [0%nat]) W g0 Hl)
    as (g1 & R1 & C1 & F1).
  rewrite ?bind_assoc, (bind_eq _ _ _ _ _ R1).
  destruct (child_keeps_parent _ self 0%nat _ _ _
              (local_propagate_eval_width _ _ (obj_local _ _) _) R1) as [E1 _].
  rewrite ?bind_assoc, (bind_eval_width self W) by congruence.
  destruct (propagate_context r (self ++ [1%nat]) W g1 Hr)
    as (g2 & R2 & C2 & F2).
  rewrite ?bind_assoc, (bind_eq _ _ _ _ _ R2).
  destruct (child_keeps_parent _ self 1%nat _ _ _
              (local_propagate_eval_width _ _ (obj_local _ _) _) R2) as [E2 _].
  exists g2. split; [reflexivity|]. split; [now rewrite C2, C1|].
  split; [congruence|].
  intros p e' [Hin|Hin]%elem_of_app; [|exact (F2 _ _ Hin)].
  pose proof (subtrees_prefix _ _ _ _ Hin) as Hpre.
  destruct (local_propagate_eval_width _ _ (obj_local r (self ++ [1%nat]))
              _ _ _ _ R2 p) as [E _].
  { apply (sibling_disjoint self p 0%nat 1%nat); [lia|exact Hpre]. }
  rewrite E. exact (F1 _ _ Hin).
Qed.

(** [_Expr.resolve_expr_width] over one context-determined operand. *)
Lemma base_resolve_context_1 (n : expr) (self : node) (h : heap) :
  context_determined n = true ->
  exists h',
    base_resolve_expr_width self [obj n (self ++ [0%nat])] h = Ok (tt, h')
    /\ cast_width h' = cast_width h
    /\ expr_eval_width h' !! self = Some (Z.max (min_width n) 1)
    /\ forall p e', (p, e') ∈ subtrees n (self ++ [0%nat]) ->
         expr_eval_width h' !! p = Some (Z.max (min_width n) 1).
Proof.
  intros Hn. rewrite Z.max_comm. set (W := Z.max 1 (min_width n)).
  unfold base_resolve_expr_width. cbn [for_each].
  rewrite ?bind_assoc, bind_set_expr_eval_width. simpl assign.
  rewrite ?bind_assoc, (bind_eq _ _ _ _ _ (get_min_eval_width_context n _ _ Hn)).
  rewrite ?bind_assoc, (bind_eval_width self 1) by apply lookup_insert_eq.
  rewrite ?bind_assoc, bind_set_expr_eval_width. simpl assign. fold W.
  rewrite ?bind_assoc, bind_ret.
  set (g0 := Heap _ _).
  assert (expr_eval_width g0 !! self = Some W) as Hg0
    by apply lookup_insert_eq.
  rewrite ?bind_assoc, (bind_eval_width self W) by exact Hg0.
  destruct (propagate_context n (self ++ [0%nat]) W g0 Hn)
    as (g1 & R1 & C1 & F1).
  rewrite ?bind_assoc, (bind_eq _ _ _ _ _ R1).
  destruct (child_keeps_parent _ self 0%nat _ _ _
              (local_propagate_eval_width _ _ (obj_local _ _) _) R1) as [E1 _].
  exists g1. split; [reflexivity|]. split; [now rewrite C1|].
  split; [congruence|exact F1].
Qed.

(** X11.  [propagate_eval_width(w)] on a tree of literals and binary and
    unary integer operators returns, stores [w] in every node of the tree
    and leaves every [cast_width] alone. *)
Theorem propagate_eval_width_fills_subtree
    (e : expr) (self : node) (w : Z) (h : heap) :
  context_determined e = true ->
  exists h',
    propagate_eval_width (obj e self) w h = Ok (tt, h')
    /\ cast_width h' = cast_width h
    /\ forall p e', (p, e') ∈ subtrees e self ->
         expr_eval_width h' !! p = Some w.
Proof. apply propagate_context. Qed.

(** [_Expr.resolve_expr_width] over context-determined operands. *)
Lemma resolve_context
    (e : expr) (self : node) (h : heap) :
  inherits_resolve e = true ->
  Forall (fun x => context_determined x = true) (op e) ->
  exists h',
    resolve_expr_width (obj e self) h = Ok (tt, h')
    /\ cast_width h' = cast_width h
    /\ forall p e', (p, e') ∈ subtrees e self ->
         expr_eval_width h' !! p = Some (operands_width e).
Proof.
  intros Hkind Hops.
  destruct e; try discriminate Hkind; simpl in Hops;
    repeat match goal with
           | H : Forall _ (_ :: _) |- _ =>
               let H1 := fresh "Hop" in
               apply Forall_cons in H as [H1 H]
           end;
    unfold operands_width; simpl.
  1-3: eexists; split; [reflexivity|]; split; [reflexivity|];
    intros p e' Hin;
    apply elem_of_cons in Hin as [[= -> _]|Hin];
    [apply lookup_insert_eq|now apply elem_of_nil in Hin].
  all: try (destruct (base_resolve_context_2 _ _ self h Hop Hop0)
              as (h' & R & C & S & F);
            exists h'; split; [exact R|]; split; [exact C|];
            intros p e' Hin;
            apply elem_of_cons in Hin as [[= -> _]|Hin];
            [exact S|exact (F _ _ Hin)]).
  all: destruct (base_resolve_context_1 _ self h Hop) as (h' & R & C & S & F);
    exists h'; (split; [exact R|]); (split; [exact C|]);
    intros p e' Hin;
    apply elem_of_cons in Hin as [[= -> _]|Hin];
    [exact S|exact (F _ _ Hin)].
Qed.

(** X12.  [resolve_expr_width] of a node that inherits it from [_Expr]
    (a literal, a binary or unary integer operator, a relational or
    reduction operator, a boolean or assignment cast) whose operands are
    trees of literals and binary and unary integer operators returns and
    leaves one width in every node of the tree: the maximum of 1 and of the
    widths of the literals under the operands. *)
Theorem resolve_expr_width_one_context
    (e : expr) (self : node) (h : heap) :
  inherits_resolve e = true ->
  Forall (fun x => context_determined x = true) (op e) ->
  exists h',
    resolve_expr_width (obj e self) h = Ok (tt, h')
    /\ cast_width h' = cast_width h
    /\ forall p e', (p, e') ∈ subtrees e self ->
         expr_eval_width h' !! p = Some (operands_width e).
Proof. apply resolve_context. Qed.

(** *** Arithmetic modulo a power of two *)

Lemma land_ones_land (a b o : Z) :
  Z.land (Z.land a b) o = Z.land (Z.land a o) (Z.land b o).
Proof.
  apply Z.bits_inj'. intros n _. rewrite !Z.land_spec.
  now destruct (Z.testbit a n), (Z.testbit b n), (Z.testbit o n).
Qed.

Lemma land_ones_lor (a b o : Z) :
  Z.land (Z.lor a b) o = Z.lor (Z.land a o) (Z.land b o).
Proof.
  apply Z.bits_inj'. intros n _. rewrite !Z.land_spec, !Z.lor_spec, !Z.land_spec.
  now destruct (Z.testbit a n), (Z.testbit b n), (Z.testbit o n).
Qed.

Lemma land_ones_lxor (a b o : Z) :
  Z.land (Z.lxor a b) o = Z.lxor (Z.land a o) (Z.land b o).
Proof.
  apply Z.bits_inj'. intros n _.
  rewrite !Z.land_spec, !Z.lxor_spec, !Z.land_spec.
  now destruct (Z.testbit a n), (Z.testbit b n), (Z.testbit o n).
Qed.

Lemma lnot_mod_congr (a a' w : Z) :
  0 <= w -> a mod 2 ^ w = a' mod 2 ^ w ->
  Z.lnot a mod 2 ^ w = Z.lnot a' mod 2 ^ w.
Proof.
  intros Hw Ha. unfold Z.lnot. rewrite <- !Z.sub_1_r.
  replace (- a - 1) with (-1 - a) by lia.
  replace (- a' - 1) with (-1 - a') by lia.
  rewrite (Zminus_mod (-1) a), (Zminus_mod (-1) a'). now rewrite Ha.
Qed.

(** Every modular operator respects congruence modulo [2^w]. *)
Lemma binary_mod_congr (cls : binop) (a a' b b' w : Z) :
  modular_op cls = true -> 0 <= w ->
  a mod 2 ^ w = a' mod 2 ^ w -> b mod 2 ^ w = b' mod 2 ^ w ->
  exists z z',
    binary cls a b = Ok z /\ binary cls a' b' = Ok z'
    /\ z mod 2 ^ w = z' mod 2 ^ w.
Proof.
  intros Hop Hw Ha Hb.
  destruct cls; try discriminate Hop; simpl; eexists; eexists;
    (split; [reflexivity|]); (split; [reflexivity|]).
  - rewrite (Zplus_mod a b), (Zplus_mod a' b'). now rewrite Ha, Hb.
  - rewrite (Zminus_mod a b), (Zminus_mod a' b'). now rewrite Ha, Hb.
  - rewrite (Zmult_mod a b), (Zmult_mod a' b'). now rewrite Ha, Hb.
  - rewrite <- !Z.land_ones in * by lia.
    rewrite (land_ones_land a b), (land_ones_land a' b'). now rewrite Ha, Hb.
  - rewrite <- !Z.land_ones in * by lia.
    rewrite (land_ones_lor a b), (land_ones_lor a' b'). now rewrite Ha, Hb.
  - rewrite <- !Z.land_ones in * by lia.
    rewrite (land_ones_lxor a b), (land_ones_lxor a' b'). now rewrite Ha, Hb.
  - pose proof (lnot_mod_congr b b' w Hw Hb) as Hnb.
    rewrite <- !Z.land_ones in * by lia.
    rewrite (land_ones_lxor a), (land_ones_lxor a'). now rewrite Ha, Hnb.
Qed.

(** On exact operand values a modular operator gives the exact value. *)
Lemma binary_exact (cls : binop) (c : ctx) (l r : expr) :
  modular_op cls = true ->
  binary cls (exact l) (exact r) = Ok (exact (BinaryIntExpr cls c l r)).
Proof. now destruct cls. Qed.

Lemma unary_mod_congr (cls : unop) (a a' w : Z) :
  0 <= w -> a mod 2 ^ w = a' mod 2 ^ w ->
  unary cls a mod 2 ^ w = unary cls a' mod 2 ^ w.
Proof.
  intros Hw Ha. destruct cls; simpl.
  - exact Ha.
  - replace (- a) with (0 - a) by lia. replace (- a') with (0 - a') by lia.
    rewrite (Zminus_mod 0 a), (Zminus_mod 0 a'). now rewrite Ha.
  - now apply lnot_mod_congr.
Qed.

(** In a heap where every node of a modular tree holds the width [w],
    [get_value] returns an integer congruent to the exact value modulo
    [2^w], reduced into [[0, 2^w)] unless the tree is a bare literal, and
    leaves the heap alone. *)
Lemma get_value_modular (e : expr) :
  forall (self : node) (h : heap) (w : Z),
    modular e = true -> 0 <= w ->
    (forall p e', (p, e') ∈ subtrees e self ->
                  expr_eval_width h !! p = Some w) ->
    exists z,
      get_value (obj e self) h = Ok (VInt z, h)
      /\ z mod 2 ^ w = exact e mod 2 ^ w
      /\ (is_literal e = false -> z = exact e mod 2 ^ w).
Proof.
  induction e as [e IH] using expr_op_ind. intros self h w Hm Hw Hall.
  destruct e; try discriminate Hm; simpl in IH, Hm;
    repeat match goal with
           | H : Forall _ (_ :: _) |- _ =>
               let H1 := fresh "Hop" in
               apply Forall_cons in H as [H1 H]
           | H : _ && _ = true |- _ => apply andb_true_iff in H as [? ?]
           end.
  - exists val. split; [reflexivity|]. split; [reflexivity|discriminate].
  - destruct (Hop (self ++ [0%nat]) h w) as (a & Ra & Ca & _); auto.
    { intros p e' Hin. apply (Hall p e'). simpl.
      apply elem_of_cons. right. apply elem_of_app. now left. }
    destruct (Hop0 (self ++ [1%nat]) h w) as (b & Rb & Cb & _); auto.
    { intros p e' Hin. apply (Hall p e'). simpl.
      apply elem_of_cons. right. apply elem_of_app. now right. }
    destruct (binary_mod_congr cls a (exact e1) b (exact e2) w)
      as (z & z' & Hz & Hz' & Cz); auto.
    rewrite (binary_exact cls err_ctx e1 e2) in Hz' by assumption.
    injection Hz' as <-.
    exists (z mod 2 ^ w).
    assert (expr_eval_width h !! self = Some w) as Hself.
    { apply (Hall self (BinaryIntExpr cls err_ctx e1 e2)). simpl.
      apply elem_of_cons. now left. }
    split; [|split].
    + eapply BinaryIntExpr_get_value; eauto.
    + rewrite Z.mod_mod by (apply Z.pow_nonzero; lia). exact Cz.
    + intros _. exact Cz.
  - destruct (Hop (self ++ [0%nat]) h w) as (a & Ra & Ca & _); auto.
    { intros p e' Hin. apply (Hall p e'). simpl.
      apply elem_of_cons. now right. }
    assert (expr_eval_width h !! self = Some w) as Hself.
    { apply (Hall self (UnaryIntExpr cls err_ctx e)). simpl.
      apply elem_of_cons. now left. }
    exists (unary cls a mod 2 ^ w).
    assert (unary cls a mod 2 ^ w = exact (UnaryIntExpr cls err_ctx e) mod 2 ^ w)
      as Cz.
    { rewrite (unary_mod_congr cls a (exact e) w Hw Ca). now destruct cls. }
    split; [|split].
    + simpl.
      rewrite (bind_eq _ _ _ _ _ (get_op1_Ok _ _ _ _ _ Ra eq_refl)).
      unfold fmap, M_fmap, bind. now rewrite (trunc_Ok self _ w h Hself Hw).
    + rewrite Z.mod_mod by (apply Z.pow_nonzero; lia). exact Cz.
    + intros _. exact Cz.
Qed.

(** X13.  Wrap-around arithmetic is arithmetic modulo [2^W].  For a tree
    of integer literals combined by [+ - * & | ^ ^~] and the unary
    operators (no division or modulo), width resolution followed by
    evaluation always returns.  When the tree has at least one operator,
    the result is the exact integer value of the expression reduced modulo
    [2^W], where [W >= 1] is the width resolution gives the tree: the
    maximum of 1 and of the widths of its literals.  When the tree is a
    bare literal, no truncation takes place and the result is the value of
    the literal as it is, whatever width it declares. *)
Theorem modular_arithmetic_is_exact (e : expr) (self : node) (h : heap) :
  modular e = true ->
  exists h',
    (resolve_expr_width (obj e self);; get_value (obj e self)) h
    = Ok (VInt (if is_literal e then exact e
                else exact e mod 2 ^ operands_width e), h')
    /\ 1 <= operands_width e.
Proof.
  intros Hm.
  assert (1 <= operands_width e) as Hge.
  { unfold operands_width. induction (min_width <$> op e); simpl; lia. }
  destruct (is_literal e) eqn:Hlit.
  { destruct e; try discriminate Hm; try discriminate Hlit.
    eexists. split; [reflexivity|exact Hge]. }
  assert (forall x, modular x = true -> context_determined x = true) as Hcd.
  { induction x as [x IHx] using expr_op_ind.
    destruct x; try discriminate; simpl in IHx |- *;
      repeat match goal with
             | H : Forall _ (_ :: _) |- _ =>
                 let H1 := fresh "Hop" in
                 apply Forall_cons in H as [H1 H]
             end; intros Hx;
      repeat match goal with
             | H : _ && _ = true |- _ => apply andb_true_iff in H as [? ?]
             end; auto.
    apply andb_true_iff. auto. }
  assert (exists h',
            resolve_expr_width (obj e self) h = Ok (tt, h')
            /\ forall p e', (p, e') ∈ subtrees e self ->
                 expr_eval_width h' !! p = Some (operands_width e))
    as (h' & Hres & Hall).
  { destruct e; try discriminate Hm; try discriminate Hlit; simpl in Hm;
      repeat match goal with
             | H : _ && _ = true |- _ => apply andb_true_iff in H as [? ?]
             end; unfold operands_width; simpl.
    - destruct (base_resolve_context_2 e1 e2 self h) as (h' & R & _ & S & F);
        auto.
      exists h'. split; [exact R|]. intros p e' Hin.
      apply elem_of_cons in Hin as [[= -> _]|Hin]; [exact S|exact (F _ _ Hin)].
    - destruct (base_resolve_context_1 e self h) as (h' & R & _ & S & F); auto.
      exists h'. split; [exact R|]. intros p e' Hin.
      apply elem_of_cons in Hin as [[= -> _]|Hin]; [exact S|exact (F _ _ Hin)]. }
  destruct (get_value_modular e self h' (operands_width e) Hm ltac:(lia) Hall)
    as (z & Hval & _ & Hz).
  exists h'. split; [|exact Hge].
  rewrite (bind_eq _ _ _ _ _ Hres). rewrite Hval. now rewrite (Hz Hlit).
Qed.

(** X14.  [get_value] never changes a [cast_width], and on a tree without
    width casts it changes nothing at all. *)
Theorem get_value_keeps_cast_width (e : expr) :
  forall (self : node) (h h' : heap) (v : value),
    get_value (obj e self) h = Ok (v, h') ->
    cast_width h' = cast_width h /\ (cast_free e = true -> h' = h).
Proof.
  induction e as [e IH] using expr_op_ind. intros self h h' v Hrun.
  destruct e as [| | | | | |cls ? ?| | | | ? ? [we|] ?| |];
    simpl in IH, Hrun;
    repeat match goal with
           | H : Forall _ (_ :: _) |- _ =>
               let H1 := fresh "Hop" in
               apply Forall_cons in H as [H1 H]
           end;
    unfold reduction_get_value in Hrun; try destruct cls;
    unfold get_ops2, get_op1 in Hrun;
    repeat match goal with
           | H : (if ?b then _ else _) _ = Ok _ |- _ => destruct b
           | _ => progress inv_run
           | H : trunc _ _ _ = Ok _ |- _ => apply trunc_inv in H as [-> _]
           end;
    repeat match goal with
           | H : get_value (obj _ _) _ = Ok _ |- _ =>
               first [apply Hop in H | apply Hop0 in H | apply Hop1 in H];
               destruct H as [? ?]
           end;
    (split;
     [simpl; congruence
     |simpl; intros Hcf; try discriminate Hcf;
      repeat match goal with
             | H : _ && _ = true |- _ => apply andb_true_iff in H as [? ?]
             end;
      repeat match goal with
             | H : cast_free ?x = true -> _, Hx : cast_free ?x = true |- _ =>
                 specialize (H Hx)
             end;
      congruence]).
Qed.

(** *** Reductions and inversions *)

Lemma lnot_mod (x w : Z) :
  0 <= w -> Z.lnot x mod 2 ^ w = 2 ^ w - 1 - x mod 2 ^ w.
Proof.
  intros Hw. assert (0 < 2 ^ w) as Hpow by now apply Z.pow_pos_nonneg.
  pose proof (Z.mod_pos_bound x (2 ^ w) Hpow) as Hr.
  symmetry. apply (Zmod_unique _ _ (- (x / 2 ^ w) - 1)); [lia|].
  unfold Z.lnot. pose proof (Z.div_mod x (2 ^ w)). lia.
Qed.

(** X15.  [AndReduce] returns 1 exactly when the [w] low bits of the
    operand value are all ones, [w] being the resolved width of the
    reduction node, and 0 otherwise. *)
Theorem AndReduce_tests_all_ones
    (c : ctx) (n : expr) (self : node) (h h' : heap) (xv : value) (x w : Z) :
  get_value (obj n (self ++ [0%nat])) h = Ok (xv, h') -> to_int xv = Ok x ->
  expr_eval_width h !! self = Some w -> 0 <= w ->
  get_value (obj (ReductionExpr AndReduce c n) self) h
  = Ok (VInt (Z.b2z (x mod 2 ^ w =? 2 ^ w - 1)), h').
Proof.
  intros Hx Hn Hw Hpos. simpl.
  rewrite (bind_eq _ _ _ _ _ (get_op1_Ok _ _ _ _ _ Hx Hn)).
  destruct (child_keeps_parent _ self 0%nat _ _ _
              (local_get_value _ _ (obj_local n _)) Hx) as [E _].
  rewrite (bind_eq _ _ _ _ _ (trunc_Ok self (Z.lnot x) w h' ltac:(congruence) Hpos)).
  rewrite lnot_mod by exact Hpos. unfold ret. do 3 f_equal.
  destruct (Z.eqb_spec (2 ^ w - 1 - x mod 2 ^ w) 0),
    (Z.eqb_spec (x mod 2 ^ w) (2 ^ w - 1)); (reflexivity || lia).
Qed.

(** X16.  With operand value [x] and resolved width [w], [BitwiseInvert]
    returns [2^w - 1 - x mod 2^w] (the [w] low bits flipped),
    [UnaryMinus] returns [(2^w - x mod 2^w) mod 2^w] (the two's complement)
    and [UnaryPlus] returns [x mod 2^w]. *)
Theorem unary_operators_on_width
    (c : ctx) (n : expr) (self : node) (h h' : heap) (xv : value) (x w : Z) :
  get_value (obj n (self ++ [0%nat])) h = Ok (xv, h') -> to_int xv = Ok x ->
  expr_eval_width h !! self = Some w -> 0 <= w ->
  get_value (obj (UnaryIntExpr BitwiseInvert c n) self) h
    = Ok (VInt (2 ^ w - 1 - x mod 2 ^ w), h')
  /\ get_value (obj (UnaryIntExpr UnaryMinus c n) self) h
    = Ok (VInt ((2 ^ w - x mod 2 ^ w) mod 2 ^ w), h')
  /\ get_value (obj (UnaryIntExpr UnaryPlus c n) self) h
    = Ok (VInt (x mod 2 ^ w), h').
Proof.
  intros Hx Hn Hw Hpos.
  destruct (child_keeps_parent _ self 0%nat _ _ _
              (local_get_value _ _ (obj_local n _)) Hx) as [E _].
  assert (expr_eval_width h' !! self = Some w) as Hw' by congruence.
  assert (0 < 2 ^ w) as Hpow by now apply Z.pow_pos_nonneg.
  assert (forall cls,
            get_value (obj (UnaryIntExpr cls c n) self) h
            = Ok (VInt (unary cls x mod 2 ^ w), h')) as Hrun.
  { intros cls. simpl.
    rewrite (bind_eq _ _ _ _ _ (get_op1_Ok _ _ _ _ _ Hx Hn)).
    unfold fmap, M_fmap, bind. now rewrite (trunc_Ok self _ w h' Hw' Hpos). }
  split; [|split]; rewrite Hrun; simpl; do 3 f_equal.
  - now apply lnot_mod.
  - replace (- x) with (0 - x) by lia. rewrite (Zminus_mod 0 x).
    rewrite (Zminus_mod (2 ^ w) (x mod 2 ^ w)).
    rewrite Z.mod_same, Z.mod_0_l, Z.mod_mod by lia. reflexivity.
Qed.

Lemma bit_parity_from_0 (k : nat) : forall i, bit_parity_from k i 0 = false.
Proof.
  induction k as [|k IH]; intros i; simpl; [reflexivity|].
  now rewrite Z.testbit_0_l, IH.
Qed.

Lemma bit_parity_from_shiftr (k : nat) (n : Z) :
  forall i, 0 <= i ->
    bit_parity_from k (i + 1) n = bit_parity_from k i (Z.shiftr n 1).
Proof.
  induction k as [|k IH]; intros i Hi; simpl; [reflexivity|].
  rewrite Z.shiftr_spec by lia. rewrite IH by lia. reflexivity.
Qed.

Lemma land_1_testbit (n : Z) : Z.land n 1 = Z.b2z (Z.testbit n 0).
Proof.
  change 1 with (Z.ones 1) at 1. rewrite Z.land_ones by lia.
  now rewrite Z.bit0_mod.
Qed.

(** The loop folds the parity of the operand's bits into [v]. *)
Lemma parity_loop_parity (k : nat) :
  forall n v i f, 0 <= n < 2 ^ Z.of_nat k -> (k <= f)%nat ->
    exists j,
      parity_loop f n v i = Ok (Z.lxor v (Z.b2z (bit_parity k n)), j).
Proof.
  unfold bit_parity.
  induction k as [|k IH]; intros n v i f Hn Hf.
  - assert (n = 0) as -> by (change (2 ^ Z.of_nat 0) with 1 in Hn; lia).
    exists i. destruct f; simpl; now rewrite Z.lxor_0_r.
  - destruct f as [|f]; [lia|]. cbn [parity_loop].
    destruct (Z.eqb_spec n 0) as [->|Hnz].
    + exists i. now rewrite bit_parity_from_0, Z.lxor_0_r.
    + destruct (IH (Z.shiftr n 1) (if Z.land n 1 =? 0 then v else Z.lxor v 1)
                  (S i) f) as (j & Hrun).
      * rewrite Z.shiftr_div_pow2 by lia. change (2 ^ 1) with 2.
        rewrite Nat2Z.inj_succ, Z.pow_succ_r in Hn by lia.
        split; [apply Z.div_pos; lia|apply Z.div_lt_upper_bound; lia].
      * lia.
      * exists j. rewrite Hrun. do 2 f_equal.
        cbn [bit_parity_from].
        rewrite (bit_parity_from_shiftr k n 0) by lia.
        rewrite land_1_testbit.
        destruct (Z.testbit n 0), (bit_parity_from k 0 (Z.shiftr n 1)); simpl;
          rewrite ?Z.lxor_0_r; try reflexivity.
        rewrite Z.lxor_assoc. simpl. now rewrite Z.lxor_0_r.
Qed.

(** X17.  On an operand value [x] with [0 <= x < 2^k], and with fuel for
    [k] iterations, [XorReduce] returns the parity of the [k] low bits of
    [x] and [XnorReduce] returns its complement. *)
Theorem XorReduce_is_bit_parity
    (c : ctx) (n : expr) (self : node) (h h' : heap) (xv : value) (x : Z)
    (k : nat) :
  get_value (obj n (self ++ [0%nat])) h = Ok (xv, h') -> to_int xv = Ok x ->
  0 <= x < 2 ^ Z.of_nat k -> (k <= fuel)%nat ->
  get_value (obj (ReductionExpr XorReduce c n) self) h
    = Ok (VInt (Z.b2z (bit_parity k x)), h')
  /\ get_value (obj (ReductionExpr XnorReduce c n) self) h
    = Ok (VInt (Z.b2z (negb (bit_parity k x))), h').
Proof.
  intros Hx Hn Hrange Hfuel.
  destruct (parity_loop_parity k x 0 0%nat fuel Hrange Hfuel) as (j0 & H0).
  destruct (parity_loop_parity k x 1 0%nat fuel Hrange Hfuel) as (j1 & H1).
  split; simpl;
    rewrite (bind_eq _ _ _ _ _ (get_op1_Ok _ _ _ _ _ Hx Hn));
    unfold mbind, M_bind, bind, lift; [rewrite H0|rewrite H1];
    simpl; unfold ret; do 3 f_equal; now destruct (bit_parity k x).
Qed.

(** *** Width contexts of casts and shifts *)

Lemma bind_get_cast_width {B} p (k : option Z -> M B) h :
  (get_cast_width p ≫= k) h = k (cast_width h !! p) h.
Proof. reflexivity. Qed.

(** X18.  [resolve_expr_width] of a width cast whose cast width [cw] is
    known, over an operand made of literals and binary and unary integer
    operators, returns and leaves the width [max(cw, m)] in the cast and in
    every node of the operand, [m] being the widest literal of the
    operand: the cast width widens the context of the value it casts. *)
Theorem WidthCast_resolve_width
    (c : ctx) (v : expr) (we : option expr) (wi : Z) (self : node)
    (h : heap) (cw : Z) :
  cast_width h !! self = Some cw ->
  context_determined v = true ->
  exists h',
    resolve_expr_width (obj (WidthCast c v we wi) self) h = Ok (tt, h')
    /\ cast_width h' = cast_width h
    /\ expr_eval_width h' !! self = Some (Z.max cw (min_width v))
    /\ forall p e', (p, e') ∈ subtrees v (self ++ [0%nat]) ->
         expr_eval_width h' !! p = Some (Z.max cw (min_width v)).
Proof.
  intros Hcw Hv. simpl.
  rewrite ?bind_assoc, bind_get_cast_width, Hcw.
  rewrite ?bind_assoc, bind_ret.
  rewrite ?bind_assoc, bind_get_cast_width, Hcw.
  rewrite ?bind_assoc, bind_set_expr_eval_width. simpl assign.
  rewrite ?bind_assoc, (bind_eq _ _ _ _ _ (get_min_eval_width_context v _ _ Hv)).
  rewrite ?bind_assoc, (bind_eval_width self cw) by apply lookup_insert_eq.
  rewrite ?bind_assoc, bind_set_expr_eval_width. simpl assign.
  set (W := Z.max cw (min_width v)). set (g0 := Heap _ _).
  destruct (propagate_context v (self ++ [0%nat]) W g0 Hv)
    as (g1 & R1 & C1 & F1).
  exists g1. split; [exact R1|]. split; [now rewrite C1|].
  split; [|exact F1].
  destruct (child_keeps_parent _ self 0%nat _ _ _
              (local_propagate_eval_width _ _ (obj_local _ _) _) R1) as [E1 _].
  rewrite E1. apply lookup_insert_eq.
Qed.

(** X19.  Take a shift or exponent node whose left operand [l] is a tree
    of literals and binary and unary integer operators, and whose right
    operand [r] is a node of a class that inherits
    [_Expr.resolve_expr_width] (a literal, a binary or unary integer
    operator, a relational or reduction operator, a boolean or assignment
    cast) over operands that are such trees.  Then
    [propagate_eval_width(w)] on the node returns, stores [w] in the node
    and in every node of [l], and leaves in every node of [r] the width
    that [resolve_expr_width] gives [r] on its own: the maximum of 1 and of
    the minimum widths of the operands of [r].  That width does not depend
    on [w]; for a bare literal [r], which has no operands, it is 1 whatever
    width the literal declares. *)
Theorem ExpShiftExpr_propagate_contexts
    (cls : shiftop) (c : ctx) (l r : expr) (self : node) (w : Z) (h : heap) :
  context_determined l = true ->
  inherits_resolve r = true ->
  Forall (fun x => context_determined x = true) (op r) ->
  exists h',
    propagate_eval_width (obj (ExpShiftExpr cls c l r) self) w h = Ok (tt, h')
    /\ expr_eval_width h' !! self = Some w
    /\ (forall p e', (p, e') ∈ subtrees l (self ++ [0%nat]) ->
          expr_eval_width h' !! p = Some w)
    /\ (forall p e', (p, e') ∈ subtrees r (self ++ [1%nat]) ->
          expr_eval_width h' !! p = Some (operands_width r)).
Proof.
  intros Hl Hr Hops. simpl.
  rewrite bind_set_expr_eval_width. simpl assign. set (g0 := Heap _ _).
  destruct (propagate_context l (self ++ [0%nat]) w g0 Hl)
    as (g1 & R1 & C1 & F1).
  rewrite (bind_eq _ _ _ _ _ R1).
  destruct (resolve_context r (self ++ [1%nat]) g1 Hr Hops)
    as (g2 & R2 & C2 & F2).
  exists g2. split; [exact R2|].
  destruct (child_keeps_parent _ self 0%nat _ _ _
              (local_propagate_eval_width _ _ (obj_local _ _) _) R1) as [E1 _].
  destruct (child_keeps_parent _ self 1%nat _ _ _
              (local_resolve_expr_width _ _ (obj_local _ _)) R2) as [E2 _].
  split; [rewrite E2, E1; apply lookup_insert_eq|]. split; [|exact F2].
  intros p e' Hin.
  pose proof (subtrees_prefix _ _ _ _ Hin) as Hpre.
  destruct (local_resolve_expr_width _ _ (obj_local r (self ++ [1%nat]))
              _ _ _ R2 p) as [E _].
  { apply (sibling_disjoint self p 0%nat 1%nat); [lia|exact Hpre]. }
  rewrite E. exact (F1 _ _ Hin).
Qed.

(** *** Whole runs *)

(** A modular tree type-checks as an integer. *)
Lemma predict_type_modular (e : expr) :
  forall self h, modular e = true ->
    predict_type (obj e self) h = Ok (Tint, h).
Proof.
  induction e as [e IH] using expr_op_ind. intros self h Hm.
  destruct e; try discriminate Hm; simpl in IH, Hm |- *;
    repeat match goal with
           | H : Forall _ (_ :: _) |- _ =>
               let H1 := fresh "Hop" in
               apply Forall_cons in H as [H1 H]
           | H : _ && _ = true |- _ => apply andb_true_iff in H as [? ?]
           end;
    unfold require_numeric; try reflexivity.
  - rewrite ?bind_assoc, (bind_eq _ _ _ _ _ (Hop _ h ltac:(assumption))). simpl.
    rewrite ?bind_assoc, bind_ret.
    rewrite ?bind_assoc, (bind_eq _ _ _ _ _ (Hop0 _ h ltac:(assumption))). reflexivity.
  - rewrite ?bind_assoc, (bind_eq _ _ _ _ _ (Hop _ h Hm)). reflexivity.
Qed.

(** X20.  The consumer's three calls on an integer assignment of a
    modular expression (integer literals under [+ - * & | ^ ^~] and the
    unary operators, not a bare literal) return the integer type and the
    exact value of the expression modulo [2^W], [W] being the maximum of 1
    and of the literal widths. *)
Theorem assignment_of_modular_expression (c : ctx) (e : expr) (h : heap) :
  modular e = true -> is_literal e = false ->
  exists h',
    evaluate (AssignmentCast c e Tint) h
    = Ok ((Tint, VInt (exact e mod 2 ^ Z.max (min_width e) 1)), h').
Proof.
  intros Hm Hlit.
  assert (context_determined e = true) as Hcd.
  { clear Hlit. induction e as [x IHx] using expr_op_ind.
    destruct x; try discriminate Hm; simpl in IHx, Hm |- *;
      repeat match goal with
             | H : Forall _ (_ :: _) |- _ =>
                 let H1 := fresh "Hop" in
                 apply Forall_cons in H as [H1 H]
             | H : _ && _ = true |- _ => apply andb_true_iff in H as [? ?]
             end; auto.
    apply andb_true_iff. auto. }
  unfold evaluate. cbv zeta.
  assert (predict_type (obj (AssignmentCast c e Tint) []) h = Ok (Tint, h))
    as Hp.
  { simpl. now rewrite (bind_eq _ _ _ _ _ (predict_type_modular e _ h Hm)). }
  rewrite (bind_eq _ _ _ _ _ Hp).
  destruct (base_resolve_context_1 e [] h Hcd) as (h' & R & _ & _ & F).
  assert (resolve_expr_width (obj (AssignmentCast c e Tint) []) h = Ok (tt, h'))
    as Hr by exact R.
  rewrite (bind_eq _ _ _ _ _ Hr).
  destruct (get_value_modular e ([] ++ [0%nat]) h' (Z.max (min_width e) 1)
              Hm ltac:(lia) F) as (z & Hval & _ & Hz).
  exists h'.
  assert (get_value (obj (AssignmentCast c e Tint) []) h'
          = Ok (VInt (exact e mod 2 ^ Z.max (min_width e) 1), h')) as Hv.
  { simpl. rewrite (bind_eq _ _ _ _ _ Hval). now rewrite (Hz Hlit). }
  now rewrite (bind_eq _ _ _ _ _ Hv).
Qed.

(** X21.  [resolve_expr_width] of every class that inherits it from
    [_Expr], and of the ternary, leaves a width of at least 1 in the node,
    whatever the operands are and whatever widths the literals declare. *)
Theorem inherited_resolve_width_at_least_1
    (e : expr) (self : node) (h h' : heap) (u : unit) :
  resolves_from_one e = true ->
  resolve_expr_width (obj e self) h = Ok (u, h') ->
  exists w, expr_eval_width h' !! self = Some w /\ 1 <= w.
Proof. apply resolve_expr_width_at_least_1. Qed.

(** X22.  On a width cast whose width expression has not been evaluated
    yet, a [get_min_eval_width] that returns [w] has resolved the width
    expression on its own, evaluated it, and [w] is the integer that
    evaluation gave; the heap left behind is the one left by that
    evaluation with [w] stored in [cast_width] of the cast.  So
    [cast_width] of the cast holds [w], its [expr_eval_width] is as before,
    and nothing else has changed outside the subtree of the width
    expression. *)
Theorem get_min_eval_width_on_pending_cast
    (c : ctx) (v we : expr) (wi : Z) (self : node) (h h' : heap) (w : Z) :
  cast_width h !! self = None ->
  get_min_eval_width (obj (WidthCast c v (Some we) wi) self) h = Ok (w, h') ->
  (exists (x : value) (h1 h2 : heap),
      resolve_expr_width (obj we (self ++ [1%nat])) h = Ok (tt, h1)
      /\ get_value (obj we (self ++ [1%nat])) h1 = Ok (x, h2)
      /\ width_of_value x = Ok w
      /\ h' = Heap (expr_eval_width h2) (<[self := w]> (cast_width h2)))
  /\ cast_width h' !! self = Some w
  /\ expr_eval_width h' !! self = expr_eval_width h !! self
  /\ forall q, q <> self -> ¬ (self ++ [1%nat]) `prefix_of` q ->
       expr_eval_width h' !! q = expr_eval_width h !! q
       /\ cast_width h' !! q = cast_width h !! q.
Proof.
  intros Hnone Hrun.
  split; [|exact (get_min_eval_width_resolves_cast c v we wi self h w h'
                    Hnone Hrun)].
  simpl in Hrun.
  apply bind_Ok in Hrun as ([] & h1 & Hrcw & Hrun).
  apply bind_Ok in Hrcw as (cw & ? & [-> ->]%get_cast_width_Ok & Hrcw).
  rewrite Hnone in Hrcw.
  apply bind_Ok in Hrcw as (o & ? & [-> ->]%ret_Ok & Hrcw).
  apply bind_Ok in Hrcw as ([] & h2 & Hres & Hrcw).
  apply bind_Ok in Hrcw as (x & h3 & Hval & Hrcw).
  apply bind_Ok in Hrcw as (w' & ? & [Hw' ->]%lift_Ok & ->%set_cast_width_Ok).
  apply bind_Ok in Hrun as (cw & ? & [-> ->]%get_cast_width_Ok & Hrun).
  simpl in Hrun. rewrite lookup_insert_eq in Hrun.
  apply ret_Ok in Hrun as [-> ->].
  exists x, h2, h3. repeat split; assumption.
Qed.
End Methods.

(** ** Closed instances *)

Local Abbreviation obj0 := (obj int_of_str_none pow_neg_refused 0%nat).
Local Abbreviation elaborate0 := (elaborate int_of_str_none pow_neg_refused 0%nat).

(** Witness for C2: [5 == 3'd5] as the left operand of a node whose width
    is 8 in one run and 64 in the other. *)
Lemma propagate_eval_width_ignores_context_witness :
  starts_new_context (RelationalExpr Eq 0%nat (lit 5 64) (lit 5 3)) = true
  /\ agree_inside [0%nat] (Heap {[ [] := 8 ]} ∅) (Heap {[ [] := 64 ]} ∅)
  /\ same_result [0%nat]
       (propagate_eval_width
          (obj0 (RelationalExpr Eq 0%nat (lit 5 64) (lit 5 3)) [0%nat]) 8
          (Heap {[ [] := 8 ]} ∅))
       (propagate_eval_width
          (obj0 (RelationalExpr Eq 0%nat (lit 5 64) (lit 5 3)) [0%nat]) 64
          (Heap {[ [] := 64 ]} ∅))
  /\ same_result [0%nat]
       ((propagate_eval_width
           (obj0 (RelationalExpr Eq 0%nat (lit 5 64) (lit 5 3)) [0%nat]) 8;;
         get_value (obj0 (RelationalExpr Eq 0%nat (lit 5 64) (lit 5 3)) [0%nat]))
          (Heap {[ [] := 8 ]} ∅))
       ((propagate_eval_width
           (obj0 (RelationalExpr Eq 0%nat (lit 5 64) (lit 5 3)) [0%nat]) 64;;
         get_value (obj0 (RelationalExpr Eq 0%nat (lit 5 64) (lit 5 3)) [0%nat]))
          (Heap {[ [] := 64 ]} ∅)).
Proof.
  assert (agree_inside [0%nat] (Heap {[ [] := 8 ]} ∅) (Heap {[ [] := 64 ]} ∅))
    as Hagree.
  { intros q [k ->]. simpl. split; [|reflexivity].
    now rewrite !lookup_singleton_ne. }
  split; [reflexivity|]. split; [exact Hagree|].
  apply (propagate_eval_width_ignores_context
           int_of_str_none pow_neg_refused 0%nat
           (RelationalExpr Eq 0%nat (lit 5 64) (lit 5 3)) [0%nat] 8 64
           (Heap {[ [] := 8 ]} ∅) (Heap {[ [] := 64 ]} ∅) eq_refl Hagree).
Defined.

(** Witness for C3: [WidthCast(IntLiteral(300, width=64), w_int=8)] gives
    300 modulo [2^8]. *)
Lemma WidthCast_truncates_to_cast_width_witness :
  0 <= 8
  /\ cast_width (fresh cast_example) !! [] = Some 8
  /\ resolve_expr_width (obj0 cast_example []) (fresh cast_example)
     = Ok (tt, heap_of (resolve_expr_width (obj0 cast_example [])
                          (fresh cast_example)))
  /\ get_value (obj0 (lit 300 64) [0%nat])
       (heap_of (resolve_expr_width (obj0 cast_example []) (fresh cast_example)))
     = Ok (VInt 300,
           heap_of (resolve_expr_width (obj0 cast_example [])
                      (fresh cast_example)))
  /\ to_int int_of_str_none (VInt 300) = Ok 300
  /\ (get_value (obj0 (WidthCast 0%nat (lit 300 64) None 8) [])
        (heap_of (resolve_expr_width (obj0 cast_example []) (fresh cast_example)))
      = Ok (VInt (300 mod 2 ^ 8),
            Heap (<[[] := 8]>
                    (expr_eval_width
                       (heap_of (resolve_expr_width (obj0 cast_example [])
                                   (fresh cast_example)))))
                 (cast_width
                    (heap_of (resolve_expr_width (obj0 cast_example [])
                                (fresh cast_example)))))
      /\ elaborate0 cast_example = Ok (Tint, VInt 44)).
Proof.
  split; [lia|]. split; [vm_compute; reflexivity|].
  split; [vm_compute; reflexivity|]. split; [vm_compute; reflexivity|].
  split; [reflexivity|].
  apply (WidthCast_truncates_to_cast_width
           int_of_str_none pow_neg_refused 0%nat
           0%nat (lit 300 64) 8 [] (fresh cast_example)
           (heap_of (resolve_expr_width (obj0 cast_example [])
                       (fresh cast_example)))
           (heap_of (resolve_expr_width (obj0 cast_example [])
                       (fresh cast_example)))
           (VInt 300) 300).
  - lia.
  - vm_compute; reflexivity.
  - vm_compute; reflexivity.
  - vm_compute; reflexivity.
  - reflexivity.
Defined.

(** Counterexample to C5 as stated, [Div(IntLiteral(-7), IntLiteral(2))]: the code
    returns [-4] modulo [2^64], the truncating quotient is [-3]; and
    [Mod] returns 1 where the truncating remainder is [-1]. *)
Lemma Div_negative_not_truncating :
  elaborate0 div_negative = Ok (Tint, VInt (2 ^ 64 - 4))
  /\ elaborate0 div_negative <> Ok (Tint, VInt ((-7 ÷ 2) mod 2 ^ 64))
  /\ elaborate0 mod_negative = Ok (Tint, VInt 1)
  /\ elaborate0 mod_negative <> Ok (Tint, VInt ((Z.rem (-7) 2) mod 2 ^ 64)).
Proof.
  split; [vm_compute; reflexivity|]. split; [vm_compute; discriminate|].
  split; [vm_compute; reflexivity|]. vm_compute; discriminate.
Qed.

(** Witness for C5 as amended: the same operands [-7] and [2] in the heap
    left by width resolution. *)
Lemma Div_Mod_floor_witness :
  get_value (obj0 (lit (-7) 64) [0%nat])
    (heap_of (resolve_expr_width (obj0 div_negative []) (fresh div_negative)))
  = Ok (VInt (-7),
        heap_of (resolve_expr_width (obj0 div_negative []) (fresh div_negative)))
  /\ to_int int_of_str_none (VInt (-7)) = Ok (-7)
  /\ get_value (obj0 (lit 2 64) [1%nat])
       (heap_of (resolve_expr_width (obj0 div_negative []) (fresh div_negative)))
     = Ok (VInt 2,
           heap_of (resolve_expr_width (obj0 div_negative []) (fresh div_negative)))
  /\ to_int int_of_str_none (VInt 2) = Ok 2
  /\ 2 <> 0
  /\ expr_eval_width
       (heap_of (resolve_expr_width (obj0 div_negative []) (fresh div_negative)))
       !! [] = Some 64
  /\ 0 <= 64
  /\ (get_value (obj0 (BinaryIntExpr Div 0%nat (lit (-7) 64) (lit 2 64)) [])
        (heap_of (resolve_expr_width (obj0 div_negative []) (fresh div_negative)))
      = Ok (VInt ((-7 / 2) mod 2 ^ 64),
            heap_of (resolve_expr_width (obj0 div_negative [])
                       (fresh div_negative)))
      /\ get_value (obj0 (BinaryIntExpr Mod 0%nat (lit (-7) 64) (lit 2 64)) [])
           (heap_of (resolve_expr_width (obj0 div_negative [])
                       (fresh div_negative)))
         = Ok (VInt ((-7 mod 2) mod 2 ^ 64),
               heap_of (resolve_expr_width (obj0 div_negative [])
                          (fresh div_negative)))
      /\ -7 = 2 * (-7 / 2) + (-7 mod 2)
      /\ (0 < 2 -> 0 <= (-7 mod 2) < 2)
      /\ (2 < 0 -> 2 < (-7 mod 2) <= 0)
      /\ (0 <= -7 -> 0 < 2 -> -7 / 2 = -7 ÷ 2 /\ -7 mod 2 = Z.rem (-7) 2)).
Proof.
  split; [vm_compute; reflexivity|]. split; [reflexivity|].
  split; [vm_compute; reflexivity|]. split; [reflexivity|].
  split; [lia|]. split; [vm_compute; reflexivity|]. split; [lia|].
  apply (Div_Mod_floor int_of_str_none pow_neg_refused 0%nat
           0%nat (lit (-7) 64) (lit 2 64) []
           (heap_of (resolve_expr_width (obj0 div_negative [])
                       (fresh div_negative)))
           (heap_of (resolve_expr_width (obj0 div_negative [])
                       (fresh div_negative)))
           (heap_of (resolve_expr_width (obj0 div_negative [])
                       (fresh div_negative)))
           (VInt (-7)) (VInt 2) (-7) 2 64).
  - vm_compute; reflexivity.
  - reflexivity.
  - vm_compute; reflexivity.
  - reflexivity.
  - lia.
  - vm_compute; reflexivity.
  - lia.
Defined.

(** Counterexample to C9 as stated,
    [WidthCast(IntLiteral(5), w_expr=IntLiteral(8))]:
    [get_min_eval_width] returns 8 and has set [cast_width] of the cast
    and [expr_eval_width] of its width operand. *)
Lemma get_min_eval_width_mutates :
  exists h1,
    get_min_eval_width (obj0 cast_dynamic []) (fresh cast_dynamic) = Ok (8, h1)
    /\ h1 <> fresh cast_dynamic
    /\ cast_width (fresh cast_dynamic) !! [] = None
    /\ cast_width h1 !! [] = Some 8
    /\ expr_eval_width (fresh cast_dynamic) !! [1%nat] = None
    /\ expr_eval_width h1 !! [1%nat] = Some 1.
Proof.
  eexists. split; [vm_compute; reflexivity|].
  split; [|repeat split; vm_compute; reflexivity].
  intros Heq. apply (f_equal (fun h => cast_width h !! [])) in Heq.
  vm_compute in Heq. discriminate Heq.
Qed.

(** Witness for C9 as amended: a cast built with an integer width. *)
Lemma get_min_eval_width_pure_witness :
  cast_widths_known cast_example [] (fresh cast_example) = true
  /\ exists w,
       get_min_eval_width (obj0 cast_example []) (fresh cast_example)
       = Ok (w, fresh cast_example).
Proof.
  split; [vm_compute; reflexivity|].
  apply (get_min_eval_width_pure int_of_str_none pow_neg_refused 0%nat
           cast_example [] (fresh cast_example)).
  vm_compute; reflexivity.
Defined.

(** ** Closed instances of the further properties *)

Local Abbreviation resolved0 e :=
  (heap_of (resolve_expr_width (obj0 e []) (fresh e))).

(** Witness for X1: 300 at width 8. *)
Lemma trunc_range_idempotent_witness :
  expr_eval_width (Heap (<[[] := 8]> ∅) ∅) !! [] = Some 8
  /\ 0 <= 8
  /\ exists z,
       trunc [] 300 (Heap (<[[] := 8]> ∅) ∅) = Ok (z, Heap (<[[] := 8]> ∅) ∅)
       /\ z = 300 mod 2 ^ 8
       /\ 0 <= z < 2 ^ 8
       /\ trunc [] z (Heap (<[[] := 8]> ∅) ∅) = Ok (z, Heap (<[[] := 8]> ∅) ∅).
Proof.
  split; [reflexivity|]. split; [lia|].
  apply (trunc_range_idempotent [] 300 8 (Heap (<[[] := 8]> ∅) ∅));
    [reflexivity|lia].
Defined.

(** Witness for X2: [2 + 3] right after construction. *)
Lemma binary_needs_resolved_width_witness :
  get_value (obj0 (lit 2 64) [0%nat]) (fresh two_plus_three)
  = Ok (VInt 2, fresh two_plus_three)
  /\ to_int int_of_str_none (VInt 2) = Ok 2
  /\ get_value (obj0 (lit 3 64) [1%nat]) (fresh two_plus_three)
     = Ok (VInt 3, fresh two_plus_three)
  /\ to_int int_of_str_none (VInt 3) = Ok 3
  /\ binary Add 2 3 = Ok 5
  /\ ((expr_eval_width (fresh two_plus_three) !! [] = None ->
       get_value (obj0 (BinaryIntExpr Add 0%nat (lit 2 64) (lit 3 64)) [])
         (fresh two_plus_three) = Raise TypeError)
      /\ (forall w, expr_eval_width (fresh two_plus_three) !! [] = Some w ->
          w < 0 ->
          get_value (obj0 (BinaryIntExpr Add 0%nat (lit 2 64) (lit 3 64)) [])
            (fresh two_plus_three) = Raise ValueError)).
Proof.
  do 5 (split; [reflexivity|]).
  apply (binary_needs_resolved_width int_of_str_none pow_neg_refused 0%nat
           Add 0%nat (lit 2 64) (lit 3 64) []
           (fresh two_plus_three) (fresh two_plus_three) (fresh two_plus_three)
           (VInt 2) (VInt 3) 2 3 5); reflexivity.
Defined.

(** Witness for X3: [7 / 0] with no width resolved. *)
Lemma Div_Mod_by_zero_witness :
  get_value (obj0 (lit 7 64) [0%nat]) empty_heap = Ok (VInt 7, empty_heap)
  /\ to_int int_of_str_none (VInt 7) = Ok 7
  /\ get_value (obj0 (lit 0 64) [1%nat]) empty_heap = Ok (VInt 0, empty_heap)
  /\ to_int int_of_str_none (VInt 0) = Ok 0
  /\ (get_value (obj0 (BinaryIntExpr Div 0%nat (lit 7 64) (lit 0 64)) [])
        empty_heap = Raise ZeroDivisionError
      /\ get_value (obj0 (BinaryIntExpr Mod 0%nat (lit 7 64) (lit 0 64)) [])
           empty_heap = Raise ZeroDivisionError).
Proof.
  do 4 (split; [reflexivity|]).
  apply (Div_Mod_by_zero int_of_str_none pow_neg_refused 0%nat
           0%nat (lit 7 64) (lit 0 64) [] empty_heap empty_heap empty_heap
           (VInt 7) (VInt 0) 7); reflexivity.
Defined.

(** Witness for X4: [1 << -1]. *)
Lemma shift_by_negative_witness :
  get_value (obj0 (lit 1 64) [0%nat]) empty_heap = Ok (VInt 1, empty_heap)
  /\ to_int int_of_str_none (VInt 1) = Ok 1
  /\ get_value (obj0 (lit (-1) 64) [1%nat]) empty_heap
     = Ok (VInt (-1), empty_heap)
  /\ to_int int_of_str_none (VInt (-1)) = Ok (-1)
  /\ -1 < 0
  /\ (get_value (obj0 (ExpShiftExpr LShift 0%nat (lit 1 64) (lit (-1) 64)) [])
        empty_heap = Raise ValueError
      /\ get_value (obj0 (ExpShiftExpr RShift 0%nat (lit 1 64) (lit (-1) 64)) [])
           empty_heap = Raise ValueError).
Proof.
  do 4 (split; [reflexivity|]). split; [lia|].
  apply (shift_by_negative int_of_str_none pow_neg_refused 0%nat
           0%nat (lit 1 64) (lit (-1) 64) [] empty_heap empty_heap empty_heap
           (VInt 1) (VInt (-1)) 1 (-1)); (reflexivity || lia).
Defined.

(** Witness for X5: [2 + 3] after width resolution. *)
Lemma truncated_value_fits_width_witness :
  truncates two_plus_three = true
  /\ get_value (obj0 two_plus_three []) (resolved0 two_plus_three)
     = Ok (VInt 5, resolved0 two_plus_three)
  /\ exists z w,
       VInt 5 = VInt z
       /\ expr_eval_width (resolved0 two_plus_three) !! [] = Some w
       /\ 0 <= w /\ 0 <= z < 2 ^ w.
Proof.
  split; [reflexivity|]. split; [vm_compute; reflexivity|].
  apply (truncated_value_fits_width int_of_str_none pow_neg_refused 0%nat
           two_plus_three [] (resolved0 two_plus_three)
           (resolved0 two_plus_three) (VInt 5));
    [reflexivity|vm_compute; reflexivity].
Defined.

(** Witness for X6: [2 + 3] as operand 0, seen from operand 1. *)
Lemma methods_touch_only_their_subtree_witness :
  ¬ [0%nat] `prefix_of` [1%nat]
  /\ ((forall t h', predict_type (obj0 two_plus_three [0%nat]) empty_heap
                    = Ok (t, h') -> same_at [1%nat] empty_heap h')
      /\ (forall u h', resolve_expr_width (obj0 two_plus_three [0%nat]) empty_heap
                       = Ok (u, h') -> same_at [1%nat] empty_heap h')
      /\ (forall w h', get_min_eval_width (obj0 two_plus_three [0%nat]) empty_heap
                       = Ok (w, h') -> same_at [1%nat] empty_heap h')
      /\ (forall w u h',
            propagate_eval_width (obj0 two_plus_three [0%nat]) w empty_heap
            = Ok (u, h') -> same_at [1%nat] empty_heap h')
      /\ (forall v h', get_value (obj0 two_plus_three [0%nat]) empty_heap
                       = Ok (v, h') -> same_at [1%nat] empty_heap h')).
Proof.
  assert (¬ [0%nat] `prefix_of` [1%nat]) as Hq
    by (intros [k Hk]; discriminate Hk).
  split; [exact Hq|].
  apply (methods_touch_only_their_subtree int_of_str_none pow_neg_refused
           0%nat two_plus_three [0%nat] [1%nat] empty_heap Hq).
Defined.

(** Witness for X7: [2 + 3]. *)
Lemma predict_type_leaves_heap_witness :
  predict_type (obj0 two_plus_three []) (fresh two_plus_three)
  = Ok (Tint, fresh two_plus_three)
  /\ fresh two_plus_three = fresh two_plus_three.
Proof.
  split; [reflexivity|].
  apply (predict_type_leaves_heap int_of_str_none pow_neg_refused 0%nat
           two_plus_three [] (fresh two_plus_three) (fresh two_plus_three)
           Tint).
  reflexivity.
Defined.

(** Witness for X8: [2 + 3] predicts the integer type and evaluates to 5. *)
Lemma predicted_type_is_sound_witness :
  predict_type (obj0 two_plus_three []) (fresh two_plus_three)
  = Ok (Tint, fresh two_plus_three)
  /\ get_value (obj0 two_plus_three []) (resolved0 two_plus_three)
     = Ok (VInt 5, resolved0 two_plus_three)
  /\ has_type (VInt 5) Tint = true.
Proof.
  split; [reflexivity|]. split; [vm_compute; reflexivity|].
  apply (predicted_type_is_sound int_of_str_none pow_neg_refused 0%nat
           two_plus_three [] (fresh two_plus_three) (fresh two_plus_three)
           (resolved0 two_plus_three) (resolved0 two_plus_three)
           Tint (VInt 5));
    [reflexivity|vm_compute; reflexivity].
Defined.

(** Witness for X10: [(2 + 3) ? 1 : 0] right after construction. *)
Lemma predict_type_checks_every_node_witness :
  width_exprs_pending ternary_root [] (fresh ternary_root) = true
  /\ predict_type (obj0 ternary_root []) (fresh ternary_root)
     = Ok (Tint, fresh ternary_root)
  /\ forall p e', (p, e') ∈ subtrees ternary_root [] ->
       exists t', predict_type (obj0 e' p) (fresh ternary_root)
                  = Ok (t', fresh ternary_root).
Proof.
  split; [reflexivity|]. split; [reflexivity|].
  apply (predict_type_checks_every_node int_of_str_none pow_neg_refused 0%nat
           ternary_root [] (fresh ternary_root) (fresh ternary_root) Tint);
    reflexivity.
Defined.

(** Witness for X11: the width 16 pushed into [2 + 3]. *)
Lemma propagate_eval_width_fills_subtree_witness :
  context_determined two_plus_three = true
  /\ exists h',
       propagate_eval_width (obj0 two_plus_three []) 16 empty_heap = Ok (tt, h')
       /\ cast_width h' = cast_width empty_heap
       /\ forall p e', (p, e') ∈ subtrees two_plus_three [] ->
            expr_eval_width h' !! p = Some 16.
Proof.
  split; [reflexivity|].
  apply (propagate_eval_width_fills_subtree int_of_str_none pow_neg_refused
           0%nat two_plus_three [] 16 empty_heap).
  reflexivity.
Defined.

(** Witness for X12: [5 == 3'd5], every node at width 64. *)
Lemma resolve_expr_width_one_context_witness :
  inherits_resolve (RelationalExpr Eq 0%nat (lit 5 64) (lit 5 3)) = true
  /\ Forall (fun x => context_determined x = true)
       (op (RelationalExpr Eq 0%nat (lit 5 64) (lit 5 3)))
  /\ exists h',
       resolve_expr_width (obj0 (RelationalExpr Eq 0%nat (lit 5 64) (lit 5 3)) [])
         empty_heap = Ok (tt, h')
       /\ cast_width h' = cast_width empty_heap
       /\ forall p e',
            (p, e') ∈ subtrees (RelationalExpr Eq 0%nat (lit 5 64) (lit 5 3)) [] ->
            expr_eval_width h' !! p
            = Some (operands_width (RelationalExpr Eq 0%nat (lit 5 64) (lit 5 3))).
Proof.
  assert (Forall (fun x => context_determined x = true)
            (op (RelationalExpr Eq 0%nat (lit 5 64) (lit 5 3)))) as Hops
    by (repeat (apply Forall_cons_2; [reflexivity|]); apply Forall_nil_2).
  split; [reflexivity|]. split; [exact Hops|].
  apply (resolve_expr_width_one_context int_of_str_none pow_neg_refused 0%nat
           (RelationalExpr Eq 0%nat (lit 5 64) (lit 5 3)) [] empty_heap
           eq_refl Hops).
Defined.

(** Witness for X13: [8'd3 - 8'd5] is 254. *)
Lemma modular_arithmetic_is_exact_witness :
  modular (BinaryIntExpr Sub 0%nat (lit 3 8) (lit 5 8)) = true
  /\ exists h',
       (resolve_expr_width (obj0 (BinaryIntExpr Sub 0%nat (lit 3 8) (lit 5 8)) []);;
        get_value (obj0 (BinaryIntExpr Sub 0%nat (lit 3 8) (lit 5 8)) []))
         empty_heap
       = Ok (VInt (if is_literal (BinaryIntExpr Sub 0%nat (lit 3 8) (lit 5 8))
                   then exact (BinaryIntExpr Sub 0%nat (lit 3 8) (lit 5 8))
                   else exact (BinaryIntExpr Sub 0%nat (lit 3 8) (lit 5 8))
                        mod 2 ^ operands_width
                                  (BinaryIntExpr Sub 0%nat (lit 3 8) (lit 5 8))),
             h')
       /\ 1 <= operands_width (BinaryIntExpr Sub 0%nat (lit 3 8) (lit 5 8)).
Proof.
  split; [reflexivity|].
  apply (modular_arithmetic_is_exact int_of_str_none pow_neg_refused 0%nat
           (BinaryIntExpr Sub 0%nat (lit 3 8) (lit 5 8)) [] empty_heap);
    reflexivity.
Defined.

(** Witness for X14: evaluating [2 + 3]. *)
Lemma get_value_keeps_cast_width_witness :
  get_value (obj0 two_plus_three []) (resolved0 two_plus_three)
  = Ok (VInt 5, resolved0 two_plus_three)
  /\ (cast_width (resolved0 two_plus_three)
      = cast_width (resolved0 two_plus_three)
      /\ (cast_free two_plus_three = true ->
          resolved0 two_plus_three = resolved0 two_plus_three)).
Proof.
  split; [vm_compute; reflexivity|].
  apply (get_value_keeps_cast_width int_of_str_none pow_neg_refused 0%nat
           two_plus_three [] (resolved0 two_plus_three)
           (resolved0 two_plus_three) (VInt 5)).
  vm_compute; reflexivity.
Defined.

(** Witness for X15: [&(4'b1111)] is 1. *)
Lemma AndReduce_tests_all_ones_witness :
  get_value (obj0 (lit 15 4) [0%nat]) (resolved0 and_ones)
  = Ok (VInt 15, resolved0 and_ones)
  /\ to_int int_of_str_none (VInt 15) = Ok 15
  /\ expr_eval_width (resolved0 and_ones) !! [] = Some 4
  /\ 0 <= 4
  /\ get_value (obj0 (ReductionExpr AndReduce 0%nat (lit 15 4)) [])
       (resolved0 and_ones)
     = Ok (VInt (Z.b2z (15 mod 2 ^ 4 =? 2 ^ 4 - 1)), resolved0 and_ones).
Proof.
  split; [vm_compute; reflexivity|]. split; [reflexivity|].
  split; [vm_compute; reflexivity|]. split; [lia|].
  apply (AndReduce_tests_all_ones int_of_str_none pow_neg_refused 0%nat
           0%nat (lit 15 4) [] (resolved0 and_ones) (resolved0 and_ones)
           (VInt 15) 15 4);
    [vm_compute; reflexivity|reflexivity|vm_compute; reflexivity|lia].
Defined.

(** Witness for X16: [~(4'd0)] is 15. *)
Lemma unary_operators_on_width_witness :
  get_value (obj0 (lit 0 4) [0%nat])
    (resolved0 (UnaryIntExpr BitwiseInvert 0%nat (lit 0 4)))
  = Ok (VInt 0, resolved0 (UnaryIntExpr BitwiseInvert 0%nat (lit 0 4)))
  /\ to_int int_of_str_none (VInt 0) = Ok 0
  /\ expr_eval_width (resolved0 (UnaryIntExpr BitwiseInvert 0%nat (lit 0 4)))
       !! [] = Some 4
  /\ 0 <= 4
  /\ (get_value (obj0 (UnaryIntExpr BitwiseInvert 0%nat (lit 0 4)) [])
        (resolved0 (UnaryIntExpr BitwiseInvert 0%nat (lit 0 4)))
      = Ok (VInt (2 ^ 4 - 1 - 0 mod 2 ^ 4),
            resolved0 (UnaryIntExpr BitwiseInvert 0%nat (lit 0 4)))
      /\ get_value (obj0 (UnaryIntExpr UnaryMinus 0%nat (lit 0 4)) [])
           (resolved0 (UnaryIntExpr BitwiseInvert 0%nat (lit 0 4)))
         = Ok (VInt ((2 ^ 4 - 0 mod 2 ^ 4) mod 2 ^ 4),
               resolved0 (UnaryIntExpr BitwiseInvert 0%nat (lit 0 4)))
      /\ get_value (obj0 (UnaryIntExpr UnaryPlus 0%nat (lit 0 4)) [])
           (resolved0 (UnaryIntExpr BitwiseInvert 0%nat (lit 0 4)))
         = Ok (VInt (0 mod 2 ^ 4),
               resolved0 (UnaryIntExpr BitwiseInvert 0%nat (lit 0 4)))).
Proof.
  split; [vm_compute; reflexivity|]. split; [reflexivity|].
  split; [vm_compute; reflexivity|]. split; [lia|].
  apply (unary_operators_on_width int_of_str_none pow_neg_refused 0%nat
           0%nat (lit 0 4) []
           (resolved0 (UnaryIntExpr BitwiseInvert 0%nat (lit 0 4)))
           (resolved0 (UnaryIntExpr BitwiseInvert 0%nat (lit 0 4)))
           (VInt 0) 0 4);
    [vm_compute; reflexivity|reflexivity|vm_compute; reflexivity|lia].
Defined.

(** Witness for X17: [^(4'b1011)] is 1, with fuel for 4 iterations. *)
Lemma XorReduce_is_bit_parity_witness :
  get_value (obj int_of_str_none pow_neg_refused 4%nat (lit 11 4) [0%nat])
    empty_heap = Ok (VInt 11, empty_heap)
  /\ to_int int_of_str_none (VInt 11) = Ok 11
  /\ 0 <= 11 < 2 ^ Z.of_nat 4
  /\ (4 <= 4)%nat
  /\ (get_value
        (obj int_of_str_none pow_neg_refused 4%nat
           (ReductionExpr XorReduce 0%nat (lit 11 4)) []) empty_heap
      = Ok (VInt (Z.b2z (bit_parity 4 11)), empty_heap)
      /\ get_value
           (obj int_of_str_none pow_neg_refused 4%nat
              (ReductionExpr XnorReduce 0%nat (lit 11 4)) []) empty_heap
         = Ok (VInt (Z.b2z (negb (bit_parity 4 11))), empty_heap)).
Proof.
  split; [reflexivity|]. split; [reflexivity|].
  split; [vm_compute; split; [discriminate|reflexivity]|]. split; [lia|].
  apply (XorReduce_is_bit_parity int_of_str_none pow_neg_refused 4%nat
           0%nat (lit 11 4) [] empty_heap empty_heap (VInt 11) 11 4%nat);
    [reflexivity|reflexivity|vm_compute; split; [discriminate|reflexivity]|lia].
Defined.

(** Witness for X18: the 8-bit cast of a 64-bit literal resolves to 64. *)
Lemma WidthCast_resolve_width_witness :
  cast_width (fresh cast_example) !! [] = Some 8
  /\ context_determined (lit 300 64) = true
  /\ exists h',
       resolve_expr_width (obj0 (WidthCast 0%nat (lit 300 64) None 8) [])
         (fresh cast_example) = Ok (tt, h')
       /\ cast_width h' = cast_width (fresh cast_example)
       /\ expr_eval_width h' !! [] = Some (Z.max 8 (min_width (lit 300 64)))
       /\ forall p e', (p, e') ∈ subtrees (lit 300 64) ([] ++ [0%nat]) ->
            expr_eval_width h' !! p = Some (Z.max 8 (min_width (lit 300 64))).
Proof.
  split; [vm_compute; reflexivity|]. split; [reflexivity|].
  apply (WidthCast_resolve_width int_of_str_none pow_neg_refused 0%nat
           0%nat (lit 300 64) None 8 [] (fresh cast_example) 8);
    [vm_compute; reflexivity|reflexivity].
Defined.

(** Witness for X19: [1 << (2 + 3)] receiving the width 32. *)
Lemma ExpShiftExpr_propagate_contexts_witness :
  context_determined (lit 1 64) = true
  /\ inherits_resolve two_plus_three = true
  /\ Forall (fun x => context_determined x = true) (op two_plus_three)
  /\ exists h',
       propagate_eval_width
         (obj0 (ExpShiftExpr LShift 0%nat (lit 1 64) two_plus_three) []) 32
         empty_heap = Ok (tt, h')
       /\ expr_eval_width h' !! [] = Some 32
       /\ (forall p e', (p, e') ∈ subtrees (lit 1 64) ([] ++ [0%nat]) ->
             expr_eval_width h' !! p = Some 32)
       /\ (forall p e', (p, e') ∈ subtrees two_plus_three ([] ++ [1%nat]) ->
             expr_eval_width h' !! p = Some (operands_width two_plus_three)).
Proof.
  assert (Forall (fun x => context_determined x = true) (op two_plus_three))
    as Hops
    by (repeat (apply Forall_cons_2; [reflexivity|]); apply Forall_nil_2).
  split; [reflexivity|]. split; [reflexivity|]. split; [exact Hops|].
  apply (ExpShiftExpr_propagate_contexts int_of_str_none pow_neg_refused 0%nat
           LShift 0%nat (lit 1 64) two_plus_three [] 32 empty_heap
           eq_refl eq_refl Hops).
Defined.

(** Witness for X20: [8'd3 - 8'd5] assigned to an integer property. *)
Lemma assignment_of_modular_expression_witness :
  modular (BinaryIntExpr Sub 0%nat (lit 3 8) (lit 5 8)) = true
  /\ is_literal (BinaryIntExpr Sub 0%nat (lit 3 8) (lit 5 8)) = false
  /\ exists h',
       evaluate int_of_str_none pow_neg_refused 0%nat
         (AssignmentCast 0%nat (BinaryIntExpr Sub 0%nat (lit 3 8) (lit 5 8)) Tint)
         empty_heap
       = Ok ((Tint,
              VInt (exact (BinaryIntExpr Sub 0%nat (lit 3 8) (lit 5 8))
                    mod 2 ^ Z.max (min_width
                                     (BinaryIntExpr Sub 0%nat (lit 3 8) (lit 5 8)))
                              1)),
             h').
Proof.
  split; [reflexivity|]. split; [reflexivity|].
  apply (assignment_of_modular_expression int_of_str_none pow_neg_refused
           0%nat 0%nat (BinaryIntExpr Sub 0%nat (lit 3 8) (lit 5 8))
           empty_heap); reflexivity.
Defined.

(** Witness for X21: [&(4'b1111)] resolved at the root. *)
Lemma inherited_resolve_width_at_least_1_witness :
  resolves_from_one and_ones = true
  /\ resolve_expr_width (obj0 and_ones []) (fresh and_ones)
     = Ok (tt, resolved0 and_ones)
  /\ exists w, expr_eval_width (resolved0 and_ones) !! [] = Some w /\ 1 <= w.
Proof.
  split; [reflexivity|]. split; [vm_compute; reflexivity|].
  apply (inherited_resolve_width_at_least_1 int_of_str_none pow_neg_refused
           0%nat and_ones [] (fresh and_ones) (resolved0 and_ones) tt);
    [reflexivity|vm_compute; reflexivity].
Defined.

(** Witness for X22: a cast whose width is the expression [8]. *)
Lemma get_min_eval_width_on_pending_cast_witness :
  cast_width (fresh cast_dynamic) !! [] = None
  /\ get_min_eval_width (obj0 cast_dynamic []) (fresh cast_dynamic)
     = Ok (8, heap_of (get_min_eval_width (obj0 cast_dynamic [])
                         (fresh cast_dynamic)))
  /\ ((exists (x : value) (h1 h2 : heap),
          resolve_expr_width (obj0 (lit 8 64) ([] ++ [1%nat]))
            (fresh cast_dynamic) = Ok (tt, h1)
          /\ get_value (obj0 (lit 8 64) ([] ++ [1%nat])) h1 = Ok (x, h2)
          /\ width_of_value x = Ok 8
          /\ heap_of (get_min_eval_width (obj0 cast_dynamic [])
                        (fresh cast_dynamic))
             = Heap (expr_eval_width h2) (<[ [] := 8 ]> (cast_width h2)))
      /\ cast_width (heap_of (get_min_eval_width (obj0 cast_dynamic [])
                                (fresh cast_dynamic))) !! [] = Some 8
      /\ expr_eval_width (heap_of (get_min_eval_width (obj0 cast_dynamic [])
                                     (fresh cast_dynamic))) !! []
         = expr_eval_width (fresh cast_dynamic) !! []
      /\ forall q, q <> [] -> ¬ ([] ++ [1%nat]) `prefix_of` q ->
           expr_eval_width (heap_of (get_min_eval_width (obj0 cast_dynamic [])
                                       (fresh cast_dynamic))) !! q
           = expr_eval_width (fresh cast_dynamic) !! q
           /\ cast_width (heap_of (get_min_eval_width (obj0 cast_dynamic [])
                                     (fresh cast_dynamic))) !! q
              = cast_width (fresh cast_dynamic) !! q).
Proof.
  split; [vm_compute; reflexivity|]. split; [vm_compute; reflexivity|].
  apply (get_min_eval_width_on_pending_cast int_of_str_none pow_neg_refused
           0%nat 0%nat (lit 5 64) (lit 8 64) 64 [] (fresh cast_dynamic)
           (heap_of (get_min_eval_width (obj0 cast_dynamic [])
                       (fresh cast_dynamic))) 8);
    vm_compute; reflexivity.
Defined.
